(** * libswiftnav/track.c: tracking loops, discriminators, correlator and
    navigation measurements

    A shallow embedding of the functions of [src/libswiftnav/track.c] that
    the specification makes statements about, and those statements.

    Conventions of the embedding.

    - A C [double] is a real number ([R]) and the arithmetic on it is exact:
      the value the code computes is the real number below up to the
      rounding of each operation.  Three places go further.
      [costas_discriminator], whose specification speaks about a division by
      zero, is embedded over [IEEE.double], the reals extended with the
      signed zeros, the infinities and NaN of IEC 60559.  The operations of
      [track_correlate] on the code phase decide integers, the number of
      samples and the chip indices: [Rounded] embeds the function with the
      rounding of each of these operations.  And [Binary64] embeds the parts
      of the source that only add, subtract, multiply and divide over the
      binary64 numbers themselves, bit for bit, so that they can be run.
    - A C integer is an integer of [Z]; a conversion from [double] to [int]
      whose value does not fit is undefined in C and is [None] here.
    - An array parameter is a pointer in C: it is the function from an index
      to the element stored there, and the function is told the number of
      elements separately, as in the source.
    - Results written through pointer parameters are returned in a record. *)

From Stdlib Require Import Reals ZArith List Bool Lia Lra Psatz.
From Stdlib Require Floats Uint63.
Import ListNotations.

Set Warnings "-inexact-float".

Local Open Scope R_scope.

(** ** C library functions and conversions used by the source *)

Module CMath.

(** [ceil]: the least integral value not less than [x], as a [double]. *)
Definition ceil (x : R) : R := IZR (Zceil x).

(** Truncation toward zero, the rounding of a [double]-to-integer cast. *)
Definition Ztrunc (x : R) : Z :=
  if Rle_dec 0 x then Zfloor x else Zceil x.

(** [fmod x y = x - n*y] where [n] is [x/y] with its fraction cut off. *)
Definition fmod (x y : R) : R := x - IZR (Ztrunc (x / y)) * y.

Definition INT_MIN : Z := - 2 ^ 31.
Definition INT_MAX : Z := 2 ^ 31 - 1.

Definition in_int_range (z : Z) : bool :=
  (INT_MIN <=? z)%Z && (z <=? INT_MAX)%Z.

(** [(int) x]: defined only when the truncated value is representable. *)
Definition double_to_int (x : R) : option Z :=
  let z := Ztrunc x in
  if in_int_range z then Some z else None.

(** Conversion of an [int] to [u32]: reduction modulo [2^32]. *)
Definition int_to_u32 (z : Z) : Z := (z mod 2 ^ 32)%Z.

End CMath.

(** ** Tracking loop filter design (track.c, lines 31-118) *)

Record loop_coeff := { tau1 : R; tau2 : R }.

Definition calc_loop_coeff (BW zeta k : R) : loop_coeff :=
  (* Solve for the natural frequency. *)
  let omega_n := BW * 8 * zeta / (4 * zeta * zeta + 1) in
  {| tau1 := k / (omega_n * omega_n);
     tau2 := 2 * zeta / omega_n |}.

Record loop_gains := { pgain : R; igain : R }.

(** Lines 107-118.  Where a divisor is zero the code returns infinities or
    NaN, and the real quotient below is not what it returns: the
    specification of the gains keeps the divisors away from zero, and
    [Binary64.calc_loop_gains] runs the code on an input where one
    vanishes. *)
Definition calc_loop_gains (bw zeta k sample_freq : R) : loop_gains :=
  (* Find the natural frequency. *)
  let omega_n := bw * 8 * zeta / (4 * zeta * zeta + 1) in
  (* Some intermediate values. *)
  let T := 1 / sample_freq in
  let denominator := k * (4 + 4 * zeta * omega_n * T + omega_n * omega_n * T * T) in
  {| pgain := 8 * zeta * omega_n * T / denominator;
     igain := 4 * omega_n * omega_n * T * T / denominator |}.

(** The loop filter design as the specification words it (section 4.1):
    [omega_n = 8 zeta B / (4 zeta^2 + 1)], [T = 1/f_s],
    [D = k (4 + 4 zeta omega_n T + omega_n^2 T^2)],
    [k_p = 8 zeta omega_n T / D], [k_i = 4 omega_n^2 T^2 / D]. *)
Module LoopFilterSpec.

Definition omega_n (B zeta : R) : R := 8 * zeta * B / (4 * zeta ^ 2 + 1).

Definition T (f_s : R) : R := 1 / f_s.

Definition D (B zeta k f_s : R) : R :=
  k * (4 + 4 * zeta * omega_n B zeta * T f_s + omega_n B zeta ^ 2 * T f_s ^ 2).

Definition k_p (B zeta k f_s : R) : R :=
  8 * zeta * omega_n B zeta * T f_s / D B zeta k f_s.

Definition k_i (B zeta k f_s : R) : R :=
  4 * omega_n B zeta ^ 2 * T f_s ^ 2 / D B zeta k f_s.

(** The gains written with the time constants of the two-time-constant
    form, [tau1 = k / omega_n^2] and [tau2 = 2 zeta / omega_n]. *)
Definition k_p_of_tau (tau1 tau2 k f_s : R) : R :=
  4 * tau2 * T f_s / (4 * tau1 + 2 * k * tau2 * T f_s + k * T f_s ^ 2).

Definition k_i_of_tau (tau1 tau2 k f_s : R) : R :=
  4 * T f_s ^ 2 / (4 * tau1 + 2 * k * tau2 * T f_s + k * T f_s ^ 2).

End LoopFilterSpec.

(** ** Discriminators (track.c, lines 134-143) *)

(** The values of a C [double] under IEC 60559 with the rounding left out:
    the real numbers, a negative zero, the two infinities and NaN.
    [Finite 0] is the positive zero. *)
Module IEEE.

Inductive double : Type :=
| Finite (r : R)
| NegZero
| Infinity (negative : bool)
| NaN.

(** The sign bit: [true] for a negative value. *)
Definition sign (d : double) : bool :=
  match d with
  | Finite r => if Rlt_dec r 0 then true else false
  | NegZero => true
  | Infinity s => s
  | NaN => false
  end.

Definition is_zero (d : double) : bool :=
  match d with
  | Finite r => if Req_dec_T r 0 then true else false
  | NegZero => true
  | _ => false
  end.

Definition zero (negative : bool) : double :=
  if negative then NegZero else Finite 0.

(** The real number a finite value stands for. *)
Definition value (d : double) : option R :=
  match d with
  | Finite r => Some r
  | NegZero => Some 0
  | _ => None
  end.

Definition to_R (d : double) : R :=
  match d with
  | Finite r => r
  | _ => 0
  end.

(** Unary minus flips the sign bit. *)
Definition neg (d : double) : double :=
  match d with
  | Finite r => if Req_dec_T r 0 then NegZero else Finite (- r)
  | NegZero => Finite 0
  | Infinity s => Infinity (negb s)
  | NaN => NaN
  end.

(** Division: [x/0] is an infinity for [x <> 0], [0/0] and [inf/inf] are
    NaN, [x/inf] is a zero; the sign is the exclusive or of the signs. *)
Definition div (a b : double) : double :=
  match a, b with
  | NaN, _ | _, NaN => NaN
  | Infinity _, Infinity _ => NaN
  | Infinity s, _ => Infinity (xorb s (sign b))
  | _, Infinity s => zero (xorb (sign a) s)
  | _, _ =>
      if is_zero b then
        if is_zero a then NaN else Infinity (xorb (sign a) (sign b))
      else if is_zero a then zero (xorb (sign a) (sign b))
      else Finite (to_R a / to_R b)
  end.

(** [atan]: [atan(+-0) = +-0] and [atan(+-inf) = +-pi/2] (C99, F.9.1.3). *)
Definition atan (d : double) : double :=
  match d with
  | Finite r => Finite (Ratan.atan r)
  | NegZero => NegZero
  | Infinity s => Finite (if s then - (PI / 2) else PI / 2)
  | NaN => NaN
  end.

End IEEE.

(** Case analysis on the comparisons a definition over [IEEE.double] makes. *)
Ltac ieee_cases :=
  repeat match goal with
    | |- context [Req_dec_T ?x ?y] => destruct (Req_dec_T x y)
    | |- context [Rlt_dec ?x ?y] => destruct (Rlt_dec x y)
    | H : context [Req_dec_T ?x ?y] |- _ => destruct (Req_dec_T x y)
    | H : context [Rlt_dec ?x ?y] |- _ => destruct (Rlt_dec x y)
    end.

(** Phase discriminator for a Costas loop: [atan(I/Q)/(2*M_PI)]. *)
Definition costas_discriminator (I Q : IEEE.double) : IEEE.double :=
  IEEE.div (IEEE.atan (IEEE.div I Q)) (IEEE.Finite (2 * PI)).

(** Modelled from the spec: [correlation_t] is declared in track.h, which is
    missing; a correlation holds an in-phase and a quadrature real-valued
    sum (section 3), and the code converts both fields to [double] before
    it uses them. *)
Module Corr.
Record correlation_t := { I : R; Q : R }.
End Corr.

Definition dll_discriminator (cs : nat -> Corr.correlation_t) : R :=
  let early_mag :=
    sqrt (Corr.I (cs 0%nat) * Corr.I (cs 0%nat) + Corr.Q (cs 0%nat) * Corr.Q (cs 0%nat)) in
  let late_mag :=
    sqrt (Corr.I (cs 2%nat) * Corr.I (cs 2%nat) + Corr.Q (cs 2%nat) * Corr.Q (cs 2%nat)) in
  (early_mag - late_mag) / (early_mag + late_mag).

(** The magnitude of a correlation vector as the specification writes it:
    [|E| = sqrt (I_E^2 + Q_E^2)]. *)
Definition correlation_magnitude (c : Corr.correlation_t) : R :=
  sqrt (Corr.I c ^ 2 + Corr.Q c ^ 2).

(** ** Loops and sums *)

(** [for_loop n body s] is the state after [for (i = 0; i < n; i++) body]
    started in [s]: the iterations [0 .. n-2], then the iteration [n-1]. *)
Fixpoint for_loop {S : Type} (n : nat) (body : nat -> S -> S) (s : S) : S :=
  match n with
  | O => s
  | Datatypes.S k => body k (for_loop k body s)
  end.

(** [Rsum n f = f 0 + ... + f (n-1)], added from the left. *)
Fixpoint Rsum (n : nat) (f : nat -> R) : R :=
  match n with
  | O => 0
  | Datatypes.S k => Rsum k f + f k
  end.

(** ** Navigation measurements (track.c, lines 147-189) *)

Definition vec3 : Type := (R * R * R)%type.

(** Modelled from the spec: [channel_measurement_t] is declared in track.h,
    which is missing; the fields are the ones the function reads, which
    are those of the data model (section 3): time of week, code phase in
    chips, code phase rate, carrier Doppler frequency and receiver time,
    each with the real number it converts to. *)
Record channel_measurement_t := {
  code_phase_chips : R;
  code_phase_rate : R;
  carrier_freq : R;
  time_of_week_ms : R;
  receiver_time : R
}.

(** Modelled from the spec: [navigation_measurement_t] is declared in
    track.h, which is missing; the fields are the ones the function writes,
    which are those of the data model (section 3). *)
Record navigation_measurement_t := {
  pseudorange : R;
  pseudorange_rate : R;
  TOT : R;
  sat_pos : vec3;
  sat_vel : vec3
}.

Definition set_pseudorange (v : R) (m : navigation_measurement_t) :=
  {| pseudorange := v; pseudorange_rate := pseudorange_rate m; TOT := TOT m;
     sat_pos := sat_pos m; sat_vel := sat_vel m |}.

Definition set_pseudorange_rate (v : R) (m : navigation_measurement_t) :=
  {| pseudorange := pseudorange m; pseudorange_rate := v; TOT := TOT m;
     sat_pos := sat_pos m; sat_vel := sat_vel m |}.

Definition set_TOT (v : R) (m : navigation_measurement_t) :=
  {| pseudorange := pseudorange m; pseudorange_rate := pseudorange_rate m; TOT := v;
     sat_pos := sat_pos m; sat_vel := sat_vel m |}.

Definition set_sat (pos vel : vec3) (m : navigation_measurement_t) :=
  {| pseudorange := pseudorange m; pseudorange_rate := pseudorange_rate m; TOT := TOT m;
     sat_pos := pos; sat_vel := vel |}.

(** Modelled from the spec: [calc_sat_pos] is declared in ephemeris.h, which
    is missing; through its first four parameters it returns the position
    and the velocity of the satellite, its clock offset and its clock drift
    (section 6). *)
Record sat_state := {
  pos : vec3;
  vel : vec3;
  clock_err : R;
  clock_rate_err : R
}.

(** The navigation measurements live in memory and are reached through
    pointers: an address is a natural number and the memory maps an address
    to the measurement stored there. *)
Definition nav_ptr : Type := nat.
Definition nav_heap : Type := nav_ptr -> navigation_measurement_t.

(** [p->field = ...]: the measurement at [p] is replaced by [f] of it. *)
Definition modify (h : nav_heap) (p : nav_ptr)
    (f : navigation_measurement_t -> navigation_measurement_t) : nav_heap :=
  fun q => if Nat.eqb q p then f (h p) else h q.

(** Assignment to an element of a local array. *)
Definition array_set (a : nat -> R) (i : nat) (v : R) : nat -> R :=
  fun j => if Nat.eqb j i then v else a j.

(** The local variables of [calc_navigation_measurement_] during its first
    loop, and the memory. *)
Record nav_locals := {
  TOTs : nat -> R;
  mean_TOT : R;
  heap : nav_heap
}.

(** [ptrs[i] = &array[i]] for [i = 0 .. n-1] (lines 153-157); the array of
    pointers is not initialised. *)
Definition element_pointers (n : nat) : nat -> nav_ptr :=
  for_loop n (fun i ptrs j => if Nat.eqb j i then i else ptrs j) (fun _ => 0%nat).

Section NavigationMeasurement.

(** Constants defined in headers that are missing. *)
Variables NAV_C GPS_L1_HZ NOMINAL_RANGE : R.

(** The ephemeris propagator is external: its results are a function of the
    ephemeris and of the time of transmission it is given. *)
Variable ephemeris_t : Type.
Variable calc_sat_pos : ephemeris_t -> R -> sat_state.

(** Lines 168-174. *)
Definition first_loop_body (meas : nat -> channel_measurement_t)
    (nav_meas : nat -> nav_ptr) (nav_time : R) (i : nat) (st : nav_locals)
    : nav_locals :=
  let TOTs1 := array_set (TOTs st) i (1e-3 * time_of_week_ms (meas i)) in
  let TOTs2 := array_set TOTs1 i (TOTs1 i + code_phase_chips (meas i) / 1.023e6) in
  let TOTs3 :=
    array_set TOTs2 i
      (TOTs2 i
       + (nav_time - receiver_time (meas i)) * code_phase_rate (meas i) / 1.023e6) in
  let heap1 := modify (heap st) (nav_meas i) (set_TOT (TOTs3 i)) in
  let mean_TOT1 := mean_TOT st + TOTs3 i in
  let heap2 :=
    modify heap1 (nav_meas i)
      (set_pseudorange_rate (NAV_C * - carrier_freq (meas i) / GPS_L1_HZ)) in
  {| TOTs := TOTs3; mean_TOT := mean_TOT1; heap := heap2 |}.

(** Line 182. *)
Definition assign_pseudorange (TOTs : nat -> R) (mean_TOT : R)
    (nav_meas : nat -> nav_ptr) (i : nat) (h : nav_heap) : nav_heap :=
  modify h (nav_meas i) (set_pseudorange ((mean_TOT - TOTs i) * NAV_C + NOMINAL_RANGE)).

(** Lines 184-187. *)
Definition clock_correction (TOTs : nat -> R) (nav_meas : nat -> nav_ptr)
    (ephemerides : nat -> ephemeris_t) (i : nat) (h : nav_heap) : nav_heap :=
  let s := calc_sat_pos (ephemerides i) (TOTs i) in
  let heap1 := modify h (nav_meas i) (set_sat (pos s) (vel s)) in
  let heap2 :=
    modify heap1 (nav_meas i)
      (fun m => set_pseudorange (pseudorange m + clock_err s * NAV_C) m) in
  modify heap2 (nav_meas i)
    (fun m => set_pseudorange_rate (pseudorange_rate m - clock_rate_err s * NAV_C) m).

Definition second_loop_body (TOTs : nat -> R) (mean_TOT : R)
    (nav_meas : nat -> nav_ptr) (ephemerides : nat -> ephemeris_t)
    (i : nat) (h : nav_heap) : nav_heap :=
  clock_correction TOTs nav_meas ephemerides i
    (assign_pseudorange TOTs mean_TOT nav_meas i h).

(** The state after the first loop (lines 164-175).  The array [TOTs] is not
    initialised; every element is assigned before it is read. *)
Definition nav_first_pass (n_channels : nat) (meas : nat -> channel_measurement_t)
    (nav_meas : nat -> nav_ptr) (nav_time : R) (h : nav_heap) : nav_locals :=
  for_loop n_channels (first_loop_body meas nav_meas nav_time)
    {| TOTs := fun _ => 0; mean_TOT := 0; heap := h |}.

(** [mean_TOT = mean_TOT/n_channels] (line 177). *)
Definition nav_mean_TOT (n_channels : nat) (meas : nat -> channel_measurement_t)
    (nav_meas : nat -> nav_ptr) (nav_time : R) (h : nav_heap) : R :=
  mean_TOT (nav_first_pass n_channels meas nav_meas nav_time h) / INR n_channels.

(** [n_channels] is a [u8]: the counter [i], a [u8] too, runs from [0] to
    [n_channels - 1 <= 254] and does not wrap. *)
Definition calc_navigation_measurement_ (n_channels : nat)
    (meas : nat -> channel_measurement_t) (nav_meas : nat -> nav_ptr)
    (nav_time : R) (ephemerides : nat -> ephemeris_t) (h : nav_heap) : nav_heap :=
  let st := nav_first_pass n_channels meas nav_meas nav_time h in
  let mean_TOT := mean_TOT st / INR n_channels in
  for_loop n_channels (second_loop_body (TOTs st) mean_TOT nav_meas ephemerides)
    (heap st).

(** The measurement of channel [i] at the point of the second loop where its
    pseudorange has just been assigned (line 182) and the satellite clock
    correction (lines 184-187) is still to come. *)
Definition nav_before_correction (n_channels : nat)
    (meas : nat -> channel_measurement_t) (nav_meas : nat -> nav_ptr)
    (nav_time : R) (ephemerides : nat -> ephemeris_t) (h : nav_heap) (i : nat)
    : navigation_measurement_t :=
  let st := nav_first_pass n_channels meas nav_meas nav_time h in
  let mean_TOT := mean_TOT st / INR n_channels in
  assign_pseudorange (TOTs st) mean_TOT nav_meas i
    (for_loop i (second_loop_body (TOTs st) mean_TOT nav_meas ephemerides) (heap st))
    (nav_meas i).

(** Lines 147-160: the arrays of structures are turned into arrays of
    pointers to their elements, the element [i] being at the address [i]. *)
Definition calc_navigation_measurement (n_channels : nat)
    (meas : nat -> channel_measurement_t) (nav_meas : nat -> navigation_measurement_t)
    (nav_time : R) (ephemerides : nat -> ephemeris_t)
    : nat -> navigation_measurement_t :=
  let nav_meas_ptrs := element_pointers n_channels in
  calc_navigation_measurement_ n_channels meas nav_meas_ptrs nav_time ephemerides nav_meas.

End NavigationMeasurement.

(** The pointers of an array of measurements are pairwise different. *)
Definition distinct_upto (n : nat) (ptr : nat -> nav_ptr) : Prop :=
  forall j k, (j < n)%nat -> (k < n)%nat -> ptr j = ptr k -> j = k.

(** The time of transmission and the reference time as the specification
    words them (section 4.4). *)
Module NavSpec.

Definition TOT_i (nav_time : R) (m : channel_measurement_t) : R :=
  time_of_week_ms m / 1000
  + code_phase_chips m / 1.023e6
  + (nav_time - receiver_time m) * code_phase_rate m / 1.023e6.

Definition meanTOT (n : nat) (tot : nat -> R) : R := Rsum n tot / INR n.

End NavSpec.

(** The net effect of the two loops on the measurement of the channel [i],
    used to state the loop invariants. *)
Section NavigationEffects.

Variables NAV_C GPS_L1_HZ NOMINAL_RANGE : R.
Variable ephemeris_t : Type.
Variable calc_sat_pos : ephemeris_t -> R -> sat_state.

Definition first_loop_effect (meas : nat -> channel_measurement_t) (nav_time : R)
    (i : nat) (m : navigation_measurement_t) : navigation_measurement_t :=
  set_pseudorange_rate (NAV_C * - carrier_freq (meas i) / GPS_L1_HZ)
    (set_TOT (NavSpec.TOT_i nav_time (meas i)) m).

Definition second_loop_effect (ephemerides : nat -> ephemeris_t)
    (T : nat -> R) (m_TOT : R) (i : nat)
    (m : navigation_measurement_t) : navigation_measurement_t :=
  let s := calc_sat_pos (ephemerides i) (T i) in
  {| pseudorange := (m_TOT - T i) * NAV_C + NOMINAL_RANGE + clock_err s * NAV_C;
     pseudorange_rate := pseudorange_rate m - clock_rate_err s * NAV_C;
     TOT := TOT m;
     sat_pos := pos s;
     sat_vel := vel s |}.

End NavigationEffects.

(** ** Correlator (track.c, lines 203-251) *)

(** Sequencing of steps that may be undefined. *)
Definition bind {A B : Type} (x : option A) (f : A -> option B) : option B :=
  match x with
  | Some a => f a
  | None => None
  end.

Notation "x <- e ;; k" := (bind e (fun x => k))
  (at level 61, e at next level, right associativity).

(** The variables that change in the loop of [track_correlate]: the two
    phases, the carrier replica and the six sums (kept in [*I_E] .. [*Q_L]). *)
Record correlator_state := {
  code_phase : R;
  carr_phase : R;
  carr_sin : R;
  carr_cos : R;
  I_E : R;
  Q_E : R;
  I_P : R;
  Q_P : R;
  I_L : R;
  Q_L : R
}.

(** What [track_correlate] has written through its pointer parameters when
    it returns. *)
Record correlator_result := {
  init_code_phase' : R;
  init_carr_phase' : R;
  I_E' : R;
  Q_E' : R;
  I_P' : R;
  Q_P' : R;
  I_L' : R;
  Q_L' : R;
  num_samples : Z
}.

(** [(int)ceil(x)], the index of a chip. *)
Definition chip_index (x : R) : option Z := CMath.double_to_int (CMath.ceil x).

(** The three indices into [code] of one sample (lines 226-228). *)
Definition early_index (code_phase : R) : option Z := chip_index (code_phase - 0.5).
Definition prompt_index (code_phase : R) : option Z := chip_index code_phase.
Definition late_index (code_phase : R) : option Z := chip_index (code_phase + 0.5).

(** The body of the loop (lines 226-247) for the sample [i], in exact
    arithmetic ([Rounded.correlate_step] has the rounding of the code
    phase).  [samples] and [code] are arrays of [s8]. *)
Definition correlate_step (samples code : Z -> Z)
    (code_step carr_step sin_delta cos_delta : R)
    (i : Z) (st : correlator_state) : option correlator_state :=
  iE <- early_index (code_phase st) ;;
  iP <- prompt_index (code_phase st) ;;
  iL <- late_index (code_phase st) ;;
  let code_E := IZR (code iE) in
  let code_P := IZR (code iP) in
  let code_L := IZR (code iL) in
  let baseband_Q := carr_cos st * IZR (samples i) in
  let baseband_I := carr_sin st * IZR (samples i) in
  let carr_sin_ := carr_sin st * cos_delta + carr_cos st * sin_delta in
  let carr_cos_ := carr_cos st * cos_delta - carr_sin st * sin_delta in
  let i_mag := (3.0 - carr_sin_ * carr_sin_ - carr_cos_ * carr_cos_) / 2.0 in
  Some {| carr_sin := carr_sin_ * i_mag;
          carr_cos := carr_cos_ * i_mag;
          I_E := I_E st + code_E * baseband_I;
          Q_E := Q_E st + code_E * baseband_Q;
          I_P := I_P st + code_P * baseband_I;
          Q_P := Q_P st + code_P * baseband_Q;
          I_L := I_L st + code_L * baseband_I;
          Q_L := Q_L st + code_L * baseband_Q;
          code_phase := code_phase st + code_step;
          carr_phase := carr_phase st + carr_step |}.

(** The state after the samples [0 .. count-1]. *)
Fixpoint correlate_loop (samples code : Z -> Z)
    (code_step carr_step sin_delta cos_delta : R)
    (count : nat) (st : correlator_state) : option correlator_state :=
  match count with
  | O => Some st
  | S k =>
      st' <- correlate_loop samples code code_step carr_step sin_delta cos_delta k st ;;
      correlate_step samples code code_step carr_step sin_delta cos_delta (Z.of_nat k) st'
  end.

(** The state when the loop is entered (lines 207-215). *)
Definition correlator_init (init_code_phase init_carr_phase : R) : correlator_state :=
  {| code_phase := init_code_phase;
     carr_phase := init_carr_phase;
     carr_sin := sin init_carr_phase;
     carr_cos := cos init_carr_phase;
     I_E := 0; Q_E := 0; I_P := 0; Q_P := 0; I_L := 0; Q_L := 0 |}.

(** [*num_samples = (int)ceil((1023.0 - code_phase) / code_step)]: the
    [int] is converted to the [u32] it is stored in.  A code step of zero
    makes the quotient an infinity or a NaN, which [ceil] returns unchanged
    and whose conversion to [int] is undefined. *)
Definition epoch_samples (init_code_phase code_step : R) : option Z :=
  if Req_dec_T code_step 0 then None
  else
    (n <- CMath.double_to_int (CMath.ceil ((1023.0 - init_code_phase) / code_step)) ;;
     Some (CMath.int_to_u32 n)).

Definition track_correlate (samples code : Z -> Z)
    (init_code_phase code_step init_carr_phase carr_step : R)
    : option correlator_result :=
  let sin_delta := sin carr_step in
  let cos_delta := cos carr_step in
  n <- epoch_samples init_code_phase code_step ;;
  st <- correlate_loop samples code code_step carr_step sin_delta cos_delta
          (Z.to_nat n) (correlator_init init_code_phase init_carr_phase) ;;
  Some {| init_code_phase' := code_phase st - 1023;
          init_carr_phase' := CMath.fmod (carr_phase st) (2 * PI);
          I_E' := I_E st; Q_E' := Q_E st;
          I_P' := I_P st; Q_P' := Q_P st;
          I_L' := I_L st; Q_L' := Q_L st;
          num_samples := n |}.

(** The state in which the sample [i] of the call is processed. *)
Definition state_at_sample (samples code : Z -> Z)
    (init_code_phase code_step init_carr_phase carr_step : R) (i : nat)
    : option correlator_state :=
  correlate_loop samples code code_step carr_step (sin carr_step) (cos carr_step)
    i (correlator_init init_code_phase init_carr_phase).

(** An input the specification calls valid, and the range of the indices of
    a code replica of 1023 chips. *)
Definition valid_epoch (init_code_phase code_step : R) : Prop :=
  0 <= init_code_phase < 1023 /\ 0 < code_step.

Definition valid_chip_index (z : Z) : Prop := (0 <= z <= 1022)%Z.

(** ** The correlator with the rounding of the code phase *)

(** [track_correlate] once more, with the rounding [fl] to a [double] after
    each operation on the code phase: the subtraction and the division of
    line 220, the subtraction and the addition of lines 226 and 228, the
    addition of line 246 and the subtraction of line 249.  [ceil] and the
    conversion to [int] are exact.  The carrier replica and the sums, from
    which no integer is taken, keep the exact arithmetic.

    A code step of zero makes the quotient of line 220 an infinity or a NaN,
    which [ceil] returns unchanged and whose conversion to [int] is
    undefined. *)
Module Rounded.

Section Rounding.

Variable fl : R -> R.

(** The indices into [code] of one sample (lines 226 and 228); the prompt
    index takes [ceil] of the code phase itself, as [prompt_index]. *)
Definition early_index (code_phase : R) : option Z := chip_index (fl (code_phase - 0.5)).
Definition late_index (code_phase : R) : option Z := chip_index (fl (code_phase + 0.5)).

(** The body of the loop (lines 226-247) for the sample [i]. *)
Definition correlate_step (samples code : Z -> Z)
    (code_step carr_step sin_delta cos_delta : R)
    (i : Z) (st : correlator_state) : option correlator_state :=
  iE <- early_index (code_phase st) ;;
  iP <- prompt_index (code_phase st) ;;
  iL <- late_index (code_phase st) ;;
  let code_E := IZR (code iE) in
  let code_P := IZR (code iP) in
  let code_L := IZR (code iL) in
  let baseband_Q := carr_cos st * IZR (samples i) in
  let baseband_I := carr_sin st * IZR (samples i) in
  let carr_sin_ := carr_sin st * cos_delta + carr_cos st * sin_delta in
  let carr_cos_ := carr_cos st * cos_delta - carr_sin st * sin_delta in
  let i_mag := (3.0 - carr_sin_ * carr_sin_ - carr_cos_ * carr_cos_) / 2.0 in
  Some {| carr_sin := carr_sin_ * i_mag;
          carr_cos := carr_cos_ * i_mag;
          I_E := I_E st + code_E * baseband_I;
          Q_E := Q_E st + code_E * baseband_Q;
          I_P := I_P st + code_P * baseband_I;
          Q_P := Q_P st + code_P * baseband_Q;
          I_L := I_L st + code_L * baseband_I;
          Q_L := Q_L st + code_L * baseband_Q;
          code_phase := fl (code_phase st + code_step);
          carr_phase := carr_phase st + carr_step |}.

(** The state after the samples [0 .. count-1]. *)
Fixpoint correlate_loop (samples code : Z -> Z)
    (code_step carr_step sin_delta cos_delta : R)
    (count : nat) (st : correlator_state) : option correlator_state :=
  match count with
  | O => Some st
  | S k =>
      st' <- correlate_loop samples code code_step carr_step sin_delta cos_delta k st ;;
      correlate_step samples code code_step carr_step sin_delta cos_delta (Z.of_nat k) st'
  end.

(** [*num_samples = (int)ceil((1023.0 - code_phase) / code_step)]. *)
Definition epoch_samples (init_code_phase code_step : R) : option Z :=
  if Req_dec_T code_step 0 then None
  else
    (n <- CMath.double_to_int
            (CMath.ceil (fl (fl (1023.0 - init_code_phase) / code_step))) ;;
     Some (CMath.int_to_u32 n)).

Definition track_correlate (samples code : Z -> Z)
    (init_code_phase code_step init_carr_phase carr_step : R)
    : option correlator_result :=
  let sin_delta := sin carr_step in
  let cos_delta := cos carr_step in
  n <- epoch_samples init_code_phase code_step ;;
  st <- correlate_loop samples code code_step carr_step sin_delta cos_delta
          (Z.to_nat n) (correlator_init init_code_phase init_carr_phase) ;;
  Some {| init_code_phase' := fl (code_phase st - 1023);
          init_carr_phase' := CMath.fmod (carr_phase st) (2 * PI);
          I_E' := I_E st; Q_E' := Q_E st;
          I_P' := I_P st; Q_P' := Q_P st;
          I_L' := I_L st; Q_L' := Q_L st;
          num_samples := n |}.

(** The state in which the sample [i] of the call is processed. *)
Definition state_at_sample (samples code : Z -> Z)
    (init_code_phase code_step init_carr_phase carr_step : R) (i : nat)
    : option correlator_state :=
  correlate_loop samples code code_step carr_step (sin carr_step) (cos carr_step)
    i (correlator_init init_code_phase init_carr_phase).

(** The code phase [p] after [k] rounded additions of the code step. *)
Fixpoint code_phase_at (p code_step : R) (k : nat) : R :=
  match k with
  | O => p
  | S j => fl (code_phase_at p code_step j + code_step)
  end.

(** The sum over the first [n] samples of chip times replica times sample:
    the chip of the sample [k] is the one at [ceil] of [index] of its code
    phase, the replica is [sin] or [cos] of its carrier phase
    [phi + k carr_step]. *)
Definition correlation_sum (samples code : Z -> Z) (index : R -> R)
    (p code_step : R) (replica : R -> R) (phi carr_step : R) (n : nat) : R :=
  Rsum n (fun k =>
    IZR (code (Zceil (index (code_phase_at p code_step k))))
    * (replica (phi + INR k * carr_step) * IZR (samples (Z.of_nat k)))).

End Rounding.

(** What the statements use of the rounding to the nearest [double]: it is
    monotone, and the multiples of a quarter with at most 53 bits, which are
    binary64 numbers, are left as they are. *)
Definition round_to_nearest (fl : R -> R) : Prop :=
  (forall x y : R, x <= y -> fl x <= fl y) /\
  (forall z : Z, (Z.abs z <= 2 ^ 53)%Z -> fl (IZR z / 4) = IZR z / 4).

(** No rounding: the exact arithmetic. *)
Definition exact (x : R) : R := x.

End Rounded.

(** ** Runs in binary64 *)

(** The parts of the source that are made of additions, subtractions,
    multiplications, divisions and [ceil] only, over the binary64 numbers
    of the machine. *)
Module Binary64.

Import Floats.
Local Open Scope float_scope.

(** The real number a finite binary64 number stands for: mantissa times a
    power of two. *)
Definition scale (e : Z) : R :=
  if (0 <=? e)%Z then IZR (2 ^ e) else (/ IZR (2 ^ (- e)))%R.

Definition B2R (x : float) : R :=
  match Prim2SF x with
  | S754_finite s m e => (IZR (if s then Z.neg m else Z.pos m) * scale e)%R
  | _ => 0%R
  end.

(** [ceil x] as an integer, for a finite [x]. *)
Definition ceil (x : float) : option Z :=
  match Prim2SF x with
  | S754_zero _ => Some 0%Z
  | S754_finite s m e =>
      let v := if s then Z.neg m else Z.pos m in
      Some (if (0 <=? e)%Z then v * 2 ^ e else - (- v / 2 ^ (- e)))%Z
  | _ => None
  end.

(** [(int)ceil(x)]: undefined when [ceil x] is not an [int]. *)
Definition int_ceil (x : float) : option Z :=
  z <- ceil x ;;
  if CMath.in_int_range z then Some z else None.

(** The conversion of an [u8] to [double]. *)
Definition of_u8 (n : nat) : float := of_uint63 (Uint63.of_Z (Z.of_nat n)).

(** Lines 107-118. *)
Definition calc_loop_gains (bw zeta k sample_freq : float) : float * float :=
  let omega_n := bw * 8 * zeta / (4 * zeta * zeta + 1) in
  let T := 1 / sample_freq in
  let denominator := k * (4 + 4 * zeta * omega_n * T + omega_n * omega_n * T * T) in
  (8 * zeta * omega_n * T / denominator, 4 * omega_n * omega_n * T * T / denominator).

(** The fields of a channel measurement, converted to [double]. *)
Record channel_measurement_t := {
  code_phase_chips : float;
  code_phase_rate : float;
  carrier_freq : float;
  time_of_week_ms : float;
  receiver_time : float
}.

(** Lines 168-170. *)
Definition TOT (nav_time : float) (m : channel_measurement_t) : float :=
  let TOT := 1e-3 * time_of_week_ms m in
  let TOT := TOT + code_phase_chips m / 1.023e6 in
  TOT + (nav_time - receiver_time m) * code_phase_rate m / 1.023e6.

(** Lines 165, 173 and 177. *)
Definition mean_TOT (nav_time : float) (meas : list channel_measurement_t) : float :=
  fold_left (fun mean_TOT m => mean_TOT + TOT nav_time m) meas 0 / of_u8 (length meas).

(** The offset of a channel and its pseudorange (line 182). *)
Definition offset (nav_time : float) (meas : list channel_measurement_t)
    (m : channel_measurement_t) : float :=
  mean_TOT nav_time meas - TOT nav_time m.

Definition pseudorange (NAV_C NOMINAL_RANGE nav_time : float)
    (meas : list channel_measurement_t) (m : channel_measurement_t) : float :=
  (mean_TOT nav_time meas - TOT nav_time m) * NAV_C + NOMINAL_RANGE.

(** Line 220. *)
Definition epoch_samples (code_phase code_step : float) : option Z :=
  n <- int_ceil ((1023.0 - code_phase) / code_step) ;;
  Some (CMath.int_to_u32 n).



(** Two channels at 70 ms of the week, one chip apart. *)
Definition channel (chips : float) : channel_measurement_t :=
  {| code_phase_chips := chips; code_phase_rate := 1.023e6; carrier_freq := 1000;
     time_of_week_ms := 70; receiver_time := 0 |}.

Definition channels : list channel_measurement_t := [channel 0; channel 1].

Definition NAV_C : float := 299792458.
Definition NOMINAL_RANGE : float := 22980000.

End Binary64.

(** ** Sample inputs *)

(** Channels with the same tracking state, an ephemeris propagator that
    reports a constant clock error, and constants of the usual size; the
    properties below are run on them. *)
Module Sample.

Definition NAV_C : R := 299792458.
Definition GPS_L1_HZ : R := 1.57542e9.
Definition NOMINAL_RANGE : R := 22980000.

Definition channel : channel_measurement_t :=
  {| code_phase_chips := 511.5;
     code_phase_rate := 1.023e6;
     carrier_freq := 1000;
     time_of_week_ms := 70;
     receiver_time := 0 |}.

Definition meas (i : nat) : channel_measurement_t := channel.

Definition nav_meas (i : nat) : nav_ptr := i.

Definition calc_sat_pos (e : unit) (t : R) : sat_state :=
  {| pos := (15600000, 7540000, 20140000); vel := (- 2600, 1800, 1200);
     clock_err := 1e-4; clock_rate_err := 1e-11 |}.

Definition ephemerides (i : nat) : unit := tt.

Definition heap (p : nav_ptr) : navigation_measurement_t :=
  {| pseudorange := 0; pseudorange_rate := 0; TOT := 0;
     sat_pos := (0, 0, 0); sat_vel := (0, 0, 0) |}.

(** Early correlation [3 + 4i], late correlation [0]: [|E| = 5], [|L| = 0]. *)
Definition correlations (i : nat) : Corr.correlation_t :=
  match i with
  | O => {| Corr.I := 3; Corr.Q := 4 |}
  | _ => {| Corr.I := 0; Corr.Q := 0 |}
  end.

End Sample.

(** ** Tropospheric correction (track.c, lines 191-200) *)

Section TropoCorrection.

(** Modelled from the spec: [wgsecef2azel] (coord_system.h) and
    [tropo_correction] (tropo.h) are missing; the first maps the position
    of a satellite and a reference position to an azimuth and an elevation,
    the second an elevation to a delay (section 6). *)
Variable wgsecef2azel : vec3 -> vec3 -> R * R.
Variable tropo_correction : R -> R.

(** Lines 197-198. *)
Definition tropo_loop_body (nav_meas : nat -> nav_ptr) (ref_ecef : vec3)
    (i : nat) (h : nav_heap) : nav_heap :=
  let '(az, el) := wgsecef2azel (sat_pos (h (nav_meas i))) ref_ecef in
  modify h (nav_meas i)
    (fun m => set_pseudorange (pseudorange m - tropo_correction el) m).

Definition apply_tropo_correction (n_channels : nat) (nav_meas : nat -> nav_ptr)
    (ref_ecef : vec3) (h : nav_heap) : nav_heap :=
  for_loop n_channels (tropo_loop_body nav_meas ref_ecef) h.

(** What the correction does to one measurement. *)
Definition tropo_effect (ref_ecef : vec3) (m : navigation_measurement_t)
    : navigation_measurement_t :=
  set_pseudorange
    (pseudorange m - tropo_correction (snd (wgsecef2azel (sat_pos m) ref_ecef))) m.

End TropoCorrection.

(** Sample geometry: the elevation is the third coordinate of the satellite
    scaled down, and the delay decreases with the elevation. *)
Module SampleTropo.

Definition wgsecef2azel (sat ref : vec3) : R * R :=
  (0, snd sat / 20140000).

Definition tropo_correction (el : R) : R := 2.5 / (el + 0.1).

Definition ref_ecef : vec3 := (3428027, 603837, 5326788).

End SampleTropo.

(** ** The correlation sums in closed form *)

(** The sum over the first [n] samples of chip times replica times sample:
    the chip is taken [offset] chips from the code phase [p + k s] of the
    sample [k], the replica is [sin] or [cos] of its carrier phase
    [phi + k carr_step]. *)
Definition correlation_sum (samples code : Z -> Z) (p code_step offset : R)
    (replica : R -> R) (phi carr_step : R) (n : nat) : R :=
  Rsum n (fun k =>
    IZR (code (Zceil (p + INR k * code_step + offset)))
    * (replica (phi + INR k * carr_step) * IZR (samples (Z.of_nat k)))).

(** Sample buffers: 1023 samples and 1025 chips of [+1], followed by
    something else. *)
Module SampleBuffers.

Definition samples (j : Z) : Z := if (j <? 1023)%Z then 1%Z else 0%Z.
Definition code (z : Z) : Z := if (z <=? 1024)%Z then 1%Z else (-1)%Z.

(** A replica of 1023 chips [+1], with [-1] in the memory around it. *)
Definition replica (z : Z) : Z :=
  if ((0 <=? z) && (z <=? 1022))%Z then 1%Z else (-1)%Z.

End SampleBuffers.

(** ** Transformations of the inputs *)

(** A correlation of [c] times the amplitude. *)
Definition scale_correlation (c : R) (x : Corr.correlation_t) : Corr.correlation_t :=
  {| Corr.I := c * Corr.I x; Corr.Q := c * Corr.Q x |}.

(** The early and the late correlation exchanged. *)
Definition swap_early_late (cs : nat -> Corr.correlation_t) (i : nat)
    : Corr.correlation_t :=
  cs (2 - i)%nat.

(** * Properties *)

(** ** Values of binary64 numbers *)

Section Binary64Values.

Import Floats.

Lemma B2R_finite (x : float) (s : bool) (m : positive) (e : Z) :
  Prim2SF x = S754_finite s m e ->
  Binary64.B2R x = IZR (if s then Z.neg m else Z.pos m) * Binary64.scale e.
Proof. intros H. unfold Binary64.B2R. now rewrite H. Qed.


End Binary64Values.

(** Replaces [Binary64.B2R x], for a closed finite non-zero [x], by its
    mantissa times its power of two. *)
Ltac binary64_value x :=
  let sf := eval vm_compute in (FloatOps.Prim2SF x) in
  lazymatch sf with
  | SpecFloat.S754_finite ?s ?m ?e =>
      rewrite (B2R_finite x s m e) by (vm_compute; reflexivity);
      unfold Binary64.scale; cbn [Z.leb Z.compare Z.opp]
  end.

(** ** Loop filter design *)

Section LoopFilter.

Import LoopFilterSpec.

Lemma omega_n_code_spec (B zeta : R) :
  B * 8 * zeta / (4 * zeta * zeta + 1) = omega_n B zeta.
Proof. unfold omega_n. f_equal; ring. Qed.

Lemma omega_n_denominator_pos (zeta : R) : 0 < 4 * zeta ^ 2 + 1.
Proof. nra. Qed.

Lemma omega_n_pos (B zeta : R) : 0 < zeta -> 0 < B -> 0 < omega_n B zeta.
Proof.
  intros Hz HB. unfold omega_n.
  apply Rdiv_lt_0_compat; [nra | apply omega_n_denominator_pos].
Qed.

Lemma T_pos (f_s : R) : 0 < f_s -> 0 < T f_s.
Proof. intros H. unfold T. apply Rdiv_lt_0_compat; lra. Qed.

(** The bracket of [D] is positive as soon as the bandwidth is not negative,
    so [D] vanishes only with [k]. *)
Lemma D_bracket_pos (B zeta f_s : R) :
  0 < zeta -> 0 <= B -> 0 < f_s ->
  0 < 4 + 4 * zeta * omega_n B zeta * T f_s + omega_n B zeta ^ 2 * T f_s ^ 2.
Proof.
  intros Hz HB Hf.
  assert (Hw : 0 <= omega_n B zeta).
  { unfold omega_n. apply Rmult_le_pos; [nra|].
    left. apply Rinv_0_lt_compat, omega_n_denominator_pos. }
  pose proof (T_pos f_s Hf) as HT.
  assert (0 <= zeta * omega_n B zeta * T f_s).
  { apply Rmult_le_pos; [apply Rmult_le_pos|]; lra. }
  assert (0 <= omega_n B zeta ^ 2 * T f_s ^ 2) by (apply Rmult_le_pos; nra).
  lra.
Qed.

Lemma D_nonzero (B zeta k f_s : R) :
  0 < zeta -> k <> 0 -> 0 <= B -> 0 < f_s -> D B zeta k f_s <> 0.
Proof.
  intros Hz Hk HB Hf. unfold D.
  apply Rmult_integral_contrapositive_currified; [exact Hk|].
  apply Rgt_not_eq, D_bracket_pos; assumption.
Qed.

(** With a negative bandwidth [D] can vanish although [zeta > 0],
    [k <> 0] and [f_s > 0]. *)
Lemma D_zero_negative_bandwidth : D (-1.25) 1 1 1 = 0.
Proof.
  unfold D, T. replace (omega_n (-1.25) 1) with (-2); [lra|].
  unfold omega_n. lra.
Qed.

(** The divisor of the two gains in the code (line 114) is [D]. *)
Lemma denominator_code_spec (B zeta k f_s : R) :
  k * (4 + 4 * zeta * omega_n B zeta * T f_s
       + omega_n B zeta * omega_n B zeta * T f_s * T f_s) = D B zeta k f_s.
Proof. unfold D. ring. Qed.

(** C2 (amended).  For every bandwidth [B >= 0], damping ratio [zeta > 0],
    loop gain [k <> 0] and sampling frequency [f_s > 0], none of the
    divisors [4 zeta^2 + 1], [f_s] and [D] is zero, and [calc_loop_gains]
    returns [k_p = 8 zeta omega_n T / D] and [k_i = 4 omega_n^2 T^2 / D] with
    [omega_n = 8 zeta B / (4 zeta^2 + 1)], [T = 1 / f_s] and
    [D = k (4 + 4 zeta omega_n T + omega_n^2 T^2)]. *)
Theorem calc_loop_gains_spec (B zeta k f_s : R) :
  0 <= B -> 0 < zeta -> k <> 0 -> 0 < f_s ->
  4 * zeta * zeta + 1 <> 0 /\ f_s <> 0 /\ D B zeta k f_s <> 0 /\
  pgain (calc_loop_gains B zeta k f_s) = k_p B zeta k f_s /\
  igain (calc_loop_gains B zeta k f_s) = k_i B zeta k f_s.
Proof.
  intros HB Hz Hk Hf.
  split; [nra|]. split; [lra|]. split; [now apply D_nonzero|].
  unfold calc_loop_gains, k_p, k_i; cbn [pgain igain].
  rewrite omega_n_code_spec. fold (T f_s). rewrite denominator_code_spec.
  split; f_equal; ring.
Qed.

Lemma calc_loop_gains_spec_witness :
  4 * 1 * 1 + 1 <> 0 /\ 1 <> 0 /\ D 1 1 1 1 <> 0 /\
  pgain (calc_loop_gains 1 1 1 1) = k_p 1 1 1 1 /\
  igain (calc_loop_gains 1 1 1 1) = k_i 1 1 1 1.
Proof. apply (calc_loop_gains_spec 1 1 1 1); lra. Defined.

(** Gains of the code in terms of the natural frequency [w] and the sampling
    time [t]: both have the sign of [k]. *)
Lemma gains_sign (zeta k w t : R) :
  0 < zeta -> 0 < w -> 0 < t ->
  let d := k * (4 + 4 * zeta * w * t + w * w * t * t) in
  (0 < k -> 0 < 8 * zeta * w * t / d /\ 0 < 4 * w * w * t * t / d) /\
  (k < 0 -> 8 * zeta * w * t / d < 0 /\ 4 * w * w * t * t / d < 0).
Proof.
  intros Hz Hw Ht d.
  assert (Hzwt : 0 < zeta * w * t) by (repeat apply Rmult_lt_0_compat; lra).
  assert (Hwt : 0 < w * w * t * t) by (repeat apply Rmult_lt_0_compat; lra).
  assert (Hb : 0 < 4 + 4 * zeta * w * t + w * w * t * t) by lra.
  split; intros Hk.
  - assert (Hd : 0 < d) by (apply Rmult_lt_0_compat; lra).
    split; apply Rdiv_lt_0_compat; lra.
  - assert (Hd : 0 < - d).
    { unfold d. rewrite Ropp_mult_distr_l. apply Rmult_lt_0_compat; lra. }
    assert (Hi : / d < 0) by (apply Rinv_lt_0_compat; lra).
    split; unfold Rdiv.
    + replace (8 * zeta * w * t * / d) with (- (8 * (zeta * w * t) * - / d)) by ring.
      apply Ropp_lt_gt_0_contravar, Rlt_gt, Rmult_lt_0_compat; lra.
    + replace (4 * w * w * t * t * / d) with (- (4 * (w * w * t * t) * - / d)) by ring.
      apply Ropp_lt_gt_0_contravar, Rlt_gt, Rmult_lt_0_compat; lra.
Qed.

Lemma calc_loop_gains_sign (B zeta k f_s : R) :
  0 < zeta -> 0 < B -> 0 < f_s ->
  (0 < k -> 0 < pgain (calc_loop_gains B zeta k f_s) /\
            0 < igain (calc_loop_gains B zeta k f_s)) /\
  (k < 0 -> pgain (calc_loop_gains B zeta k f_s) < 0 /\
            igain (calc_loop_gains B zeta k f_s) < 0).
Proof.
  intros Hz HB Hf.
  unfold calc_loop_gains; cbn [pgain igain].
  rewrite omega_n_code_spec. fold (T f_s).
  exact (gains_sign zeta k _ _ Hz (omega_n_pos B zeta Hz HB) (T_pos f_s Hf)).
Qed.

(** C7 (amended).  For [zeta > 0], [k <> 0], [B > 0], [f_s > 0] the two
    routines use the same natural frequency
    [omega_n = 8 zeta B / (4 zeta^2 + 1)]: the time constants of
    [calc_loop_coeff] are [tau1 = k / omega_n^2] and
    [tau2 = 2 zeta / omega_n], the natural frequency recovered from them is
    that of [calc_loop_gains], and the gains of [calc_loop_gains] are the ones
    obtained from [tau1] and [tau2].  The gains have the sign of [k]: both
    are strictly positive when [k > 0] and both strictly negative when
    [k < 0]. *)
Theorem loop_design_consistent (B zeta k f_s : R) :
  0 < zeta -> k <> 0 -> 0 < B -> 0 < f_s ->
  0 < omega_n B zeta /\
  tau1 (calc_loop_coeff B zeta k) = k / omega_n B zeta ^ 2 /\
  tau2 (calc_loop_coeff B zeta k) = 2 * zeta / omega_n B zeta /\
  2 * zeta / tau2 (calc_loop_coeff B zeta k) = omega_n B zeta /\
  k / tau1 (calc_loop_coeff B zeta k) = omega_n B zeta ^ 2 /\
  pgain (calc_loop_gains B zeta k f_s) =
    k_p_of_tau (tau1 (calc_loop_coeff B zeta k))
               (tau2 (calc_loop_coeff B zeta k)) k f_s /\
  igain (calc_loop_gains B zeta k f_s) =
    k_i_of_tau (tau1 (calc_loop_coeff B zeta k))
               (tau2 (calc_loop_coeff B zeta k)) k f_s /\
  (0 < k -> 0 < pgain (calc_loop_gains B zeta k f_s) /\
            0 < igain (calc_loop_gains B zeta k f_s)) /\
  (k < 0 -> pgain (calc_loop_gains B zeta k f_s) < 0 /\
            igain (calc_loop_gains B zeta k f_s) < 0).
Proof.
  intros Hz Hk HB Hf.
  pose proof (omega_n_pos B zeta Hz HB) as Hw.
  pose proof (T_pos f_s Hf) as HT.
  unfold calc_loop_coeff, calc_loop_gains, k_p_of_tau, k_i_of_tau;
    cbn [tau1 tau2 pgain igain].
  rewrite omega_n_code_spec. fold (T f_s).
  set (w := omega_n B zeta) in *. set (t := T f_s) in *.
  clearbody w t.
  assert (Hb : 0 < 4 + 4 * zeta * w * t + w * w * t * t).
  { assert (0 < zeta * w * t) by (repeat apply Rmult_lt_0_compat; lra).
    assert (0 < w * w * t * t) by (repeat apply Rmult_lt_0_compat; lra).
    lra. }
  assert (Hb' : 4 + 4 * zeta * w * t + w * w * t * t <> 0) by lra.
  assert (Hb'' : 4 * k + 4 * k * zeta * t * w + k * t ^ 2 * w ^ 2 <> 0).
  { replace (4 * k + 4 * k * zeta * t * w + k * t ^ 2 * w ^ 2)
      with (k * (4 + 4 * zeta * w * t + w * w * t * t)) by ring.
    apply Rmult_integral_contrapositive_currified; assumption. }
  assert (Hw0 : w <> 0) by lra.
  assert (Hz0 : zeta <> 0) by lra.
  split; [exact Hw|].
  split; [f_equal; ring|].
  split; [reflexivity|].
  split; [field; lra|].
  split; [field; lra|].
  split.
  { field. repeat split; try assumption.
    match goal with |- ?e <> 0 =>
      replace e with (4 * k + 4 * k * zeta * t * w + k * t ^ 2 * w ^ 2) by ring
    end.
    exact Hb''. }
  split.
  { field. repeat split; try assumption.
    match goal with |- ?e <> 0 =>
      replace e with (4 * k + 4 * k * zeta * t * w + k * t ^ 2 * w ^ 2) by ring
    end.
    exact Hb''. }
  exact (gains_sign zeta k w t Hz Hw HT).
Qed.

Lemma loop_design_consistent_witness :
  0 < omega_n 1 1 /\
  tau1 (calc_loop_coeff 1 1 1) = 1 / omega_n 1 1 ^ 2 /\
  tau2 (calc_loop_coeff 1 1 1) = 2 * 1 / omega_n 1 1 /\
  2 * 1 / tau2 (calc_loop_coeff 1 1 1) = omega_n 1 1 /\
  1 / tau1 (calc_loop_coeff 1 1 1) = omega_n 1 1 ^ 2 /\
  pgain (calc_loop_gains 1 1 1 1) =
    k_p_of_tau (tau1 (calc_loop_coeff 1 1 1))
               (tau2 (calc_loop_coeff 1 1 1)) 1 1 /\
  igain (calc_loop_gains 1 1 1 1) =
    k_i_of_tau (tau1 (calc_loop_coeff 1 1 1))
               (tau2 (calc_loop_coeff 1 1 1)) 1 1 /\
  (0 < 1 -> 0 < pgain (calc_loop_gains 1 1 1 1) /\
            0 < igain (calc_loop_gains 1 1 1 1)) /\
  (1 < 0 -> pgain (calc_loop_gains 1 1 1 1) < 0 /\
            igain (calc_loop_gains 1 1 1 1) < 0).
Proof. apply (loop_design_consistent 1 1 1 1); lra. Defined.

(** C7, as stated, fails: with a negative loop gain, [k = -1] (and
    [B = zeta = f_s = 1]), the proportional gain is negative. *)
Lemma loop_gains_not_always_positive :
  ~ (forall B zeta k f_s : R,
       0 < zeta -> k <> 0 -> 0 < B -> 0 < f_s ->
       0 < pgain (calc_loop_gains B zeta k f_s) /\
       0 < igain (calc_loop_gains B zeta k f_s)).
Proof.
  intros H.
  assert (Hp : 0 < pgain (calc_loop_gains 1 1 (-1) 1)) by (apply H; lra).
  assert (Hn : pgain (calc_loop_gains 1 1 (-1) 1) < 0).
  { apply (calc_loop_gains_sign 1 1 (-1) 1); lra. }
  lra.
Qed.

End LoopFilter.

Section LoopFilterBinary64.

Import Floats.

(** C2, as stated, fails: [zeta = 1], [k = 1], [f_s = 1] and the bandwidth
    [B = -1.25] satisfy its conditions, yet [D] is zero there, so the two
    gains are quotients by zero; in binary64 the code returns minus infinity
    and plus infinity. *)
Lemma calc_loop_gains_division_by_zero :
  0 < 1 /\ 1 <> 0 /\
  LoopFilterSpec.omega_n (-1.25) 1 = -2 /\
  LoopFilterSpec.D (-1.25) 1 1 1 = 0 /\
  Binary64.calc_loop_gains (-1.25)%float 1%float 1%float 1%float
  = (neg_infinity, infinity).
Proof.
  split; [lra|]. split; [lra|].
  split; [unfold LoopFilterSpec.omega_n; lra|].
  split; [exact D_zero_negative_bandwidth|].
  vm_compute. reflexivity.
Qed.

End LoopFilterBinary64.


(** ** Discriminators *)

Section Discriminators.

Lemma ieee_div_neg_neg (a b : IEEE.double) :
  IEEE.div (IEEE.neg a) (IEEE.neg b) = IEEE.div a b.
Proof.
  destruct a as [x| |s|], b as [y| |t|];
    unfold IEEE.neg, IEEE.div, IEEE.is_zero, IEEE.sign, IEEE.zero, IEEE.to_R;
    ieee_cases; cbn; ieee_cases; try lra; try reflexivity;
    try (destruct s; reflexivity); try (destruct t; reflexivity).
  all: f_equal; field; assumption.
Qed.

Lemma two_PI_neq_0 : 2 * PI <> 0.
Proof. pose proof PI_RGT_0. lra. Qed.

(** On finite inputs with [Q <> 0] no special value arises and the result
    is the real number [atan (I/Q) / (2 pi)]. *)
Lemma costas_discriminator_finite (I Q : R) :
  Q <> 0 ->
  IEEE.value (costas_discriminator (IEEE.Finite I) (IEEE.Finite Q)) =
  Some (atan (I / Q) / (2 * PI)).
Proof.
  intros HQ. pose proof two_PI_neq_0 as Hpi.
  unfold costas_discriminator, IEEE.div at 2, IEEE.is_zero, IEEE.sign, IEEE.zero,
    IEEE.to_R.
  destruct (Req_dec_T Q 0) as [|_]; [contradiction|].
  destruct (Req_dec_T I 0) as [HI|HI].
  - (* a zero numerator: the quotient is a signed zero *)
    subst I. replace (0 / Q) with 0 by (field; assumption). rewrite atan_0.
    destruct (Rlt_dec 0 0); [lra|].
    destruct (Rlt_dec Q 0); cbn [xorb IEEE.atan];
      unfold IEEE.div, IEEE.is_zero, IEEE.sign, IEEE.zero, IEEE.value; cbn;
      try rewrite atan_0; ieee_cases; try lra; cbn; f_equal; lra.
  - cbn [IEEE.atan].
    unfold IEEE.div, IEEE.is_zero, IEEE.sign, IEEE.zero, IEEE.to_R, IEEE.value.
    destruct (Req_dec_T (2 * PI) 0) as [|_]; [contradiction|].
    destruct (Req_dec_T (atan (I / Q)) 0) as [E|_].
    + rewrite E. destruct (xorb _ _); f_equal; unfold Rdiv; ring.
    + reflexivity.
Qed.

(** C3.  The Costas discriminator returns [atan (I/Q) / (2 pi)]; it has the
    180-degree symmetry [costas_discriminator I Q = costas_discriminator
    (-I) (-Q)] for all inputs; at [I = 0, Q = 1] it returns [0]; and at
    [I = 1, Q = 0] the quotient is [+inf], whose arctangent is [pi/2], so
    that it returns [+0.25]. *)
Theorem costas_discriminator_spec :
  (forall I Q : R, Q <> 0 ->
     IEEE.value (costas_discriminator (IEEE.Finite I) (IEEE.Finite Q)) =
     Some (atan (I / Q) / (2 * PI))) /\
  (forall I Q : IEEE.double,
     costas_discriminator I Q = costas_discriminator (IEEE.neg I) (IEEE.neg Q)) /\
  costas_discriminator (IEEE.Finite 0) (IEEE.Finite 1) = IEEE.Finite 0 /\
  costas_discriminator (IEEE.Finite 1) (IEEE.Finite 0) = IEEE.Finite 0.25.
Proof.
  pose proof two_PI_neq_0 as Hpi. pose proof PI_RGT_0 as Hpos.
  split; [exact costas_discriminator_finite|].
  split.
  { intros I Q. unfold costas_discriminator. now rewrite ieee_div_neg_neg. }
  split.
  - unfold costas_discriminator, IEEE.div at 2, IEEE.is_zero, IEEE.sign, IEEE.zero.
    ieee_cases; try lra. cbn [xorb IEEE.atan]. rewrite atan_0.
    unfold IEEE.div, IEEE.is_zero, IEEE.sign, IEEE.zero.
    ieee_cases; try lra; try contradiction. reflexivity.
  - unfold costas_discriminator, IEEE.div at 2, IEEE.is_zero, IEEE.sign, IEEE.zero.
    ieee_cases; try lra. cbn [xorb IEEE.atan].
    unfold IEEE.div, IEEE.is_zero, IEEE.sign, IEEE.zero, IEEE.to_R.
    ieee_cases; try lra; try contradiction.
    replace (PI / 2 / (2 * PI)) with (/ 4) by (field; exact PI_neq0).
    apply f_equal. lra.
Qed.

(** The other degenerate inputs: a negative zero [Q] gives [-0.25], and
    [0/0] gives NaN. *)
Lemma costas_discriminator_degenerate :
  costas_discriminator (IEEE.Finite 1) IEEE.NegZero = IEEE.Finite (- 0.25) /\
  costas_discriminator (IEEE.Finite 0) (IEEE.Finite 0) = IEEE.NaN.
Proof.
  pose proof two_PI_neq_0 as Hpi. pose proof PI_RGT_0.
  split.
  - unfold costas_discriminator, IEEE.div at 2, IEEE.is_zero, IEEE.sign, IEEE.zero.
    ieee_cases; try lra. cbn [xorb IEEE.atan].
    unfold IEEE.div, IEEE.is_zero, IEEE.sign, IEEE.zero, IEEE.to_R.
    ieee_cases; try lra; try contradiction.
    replace (- (PI / 2) / (2 * PI)) with (- / 4) by (field; exact PI_neq0).
    apply f_equal. lra.
  - unfold costas_discriminator, IEEE.div at 2, IEEE.is_zero.
    ieee_cases; try lra. reflexivity.
Qed.

Lemma correlation_magnitude_code (c : Corr.correlation_t) :
  sqrt (Corr.I c * Corr.I c + Corr.Q c * Corr.Q c) = correlation_magnitude c.
Proof. unfold correlation_magnitude. f_equal. ring. Qed.

Lemma correlation_magnitude_nonneg (c : Corr.correlation_t) :
  0 <= correlation_magnitude c.
Proof. apply sqrt_pos. Qed.

(** C4.  With [|E|] and [|L|] the magnitudes of the early and the late
    correlation and [|E| + |L| <> 0], [dll_discriminator] returns
    [(|E| - |L|) / (|E| + |L|)]; this is [0] when [|E| = |L|] and strictly
    positive when [|E| > |L|]. *)
Theorem dll_discriminator_spec (cs : nat -> Corr.correlation_t) :
  correlation_magnitude (cs 0%nat) + correlation_magnitude (cs 2%nat) <> 0 ->
  dll_discriminator cs =
    (correlation_magnitude (cs 0%nat) - correlation_magnitude (cs 2%nat)) /
    (correlation_magnitude (cs 0%nat) + correlation_magnitude (cs 2%nat)) /\
  (correlation_magnitude (cs 0%nat) = correlation_magnitude (cs 2%nat) ->
   dll_discriminator cs = 0) /\
  (correlation_magnitude (cs 0%nat) > correlation_magnitude (cs 2%nat) ->
   dll_discriminator cs > 0).
Proof.
  intros Hsum.
  unfold dll_discriminator. rewrite !correlation_magnitude_code.
  pose proof (correlation_magnitude_nonneg (cs 0%nat)) as HE.
  pose proof (correlation_magnitude_nonneg (cs 2%nat)) as HL.
  set (E := correlation_magnitude (cs 0%nat)) in *.
  set (L := correlation_magnitude (cs 2%nat)) in *.
  clearbody E L.
  split; [reflexivity|]. split.
  - intros ->. unfold Rdiv. rewrite Rminus_diag. ring.
  - intros Hgt. apply Rlt_gt, Rdiv_lt_0_compat; lra.
Qed.

Lemma sample_correlation_magnitudes :
  correlation_magnitude (Sample.correlations 0) = 5 /\
  correlation_magnitude (Sample.correlations 2) = 0.
Proof.
  unfold correlation_magnitude; cbn [Sample.correlations Corr.I Corr.Q]. split.
  - replace (3 ^ 2 + 4 ^ 2) with (5 * 5) by ring. apply sqrt_square. lra.
  - replace (0 ^ 2 + 0 ^ 2) with 0 by ring. apply sqrt_0.
Qed.

Lemma dll_discriminator_spec_witness :
  dll_discriminator Sample.correlations =
    (correlation_magnitude (Sample.correlations 0)
     - correlation_magnitude (Sample.correlations 2)) /
    (correlation_magnitude (Sample.correlations 0)
     + correlation_magnitude (Sample.correlations 2)) /\
  (correlation_magnitude (Sample.correlations 0) =
   correlation_magnitude (Sample.correlations 2) ->
   dll_discriminator Sample.correlations = 0) /\
  (correlation_magnitude (Sample.correlations 0) >
   correlation_magnitude (Sample.correlations 2) ->
   dll_discriminator Sample.correlations > 0).
Proof.
  apply (dll_discriminator_spec Sample.correlations).
  destruct sample_correlation_magnitudes as [-> ->]. lra.
Defined.

End Discriminators.

(** ** Navigation measurements *)

Section NavigationProperties.

Variables NAV_C GPS_L1_HZ NOMINAL_RANGE : R.
Variable ephemeris_t : Type.
Variable calc_sat_pos : ephemeris_t -> R -> sat_state.

Variable meas : nat -> channel_measurement_t.
Variable nav_meas : nat -> nav_ptr.
Variable nav_time : R.
Variable ephemerides : nat -> ephemeris_t.
Variable h0 : nav_heap.

Local Abbreviation body1 := (first_loop_body NAV_C GPS_L1_HZ meas nav_meas nav_time).
Local Abbreviation first_pass n := (nav_first_pass NAV_C GPS_L1_HZ n meas nav_meas nav_time h0).
Local Abbreviation tot := (fun j => NavSpec.TOT_i nav_time (meas j)).
Local Abbreviation effect1 := (first_loop_effect NAV_C GPS_L1_HZ meas nav_time).
Local Abbreviation effect2 :=
  (second_loop_effect NAV_C NOMINAL_RANGE ephemeris_t calc_sat_pos ephemerides).

(** *** Sums *)

Lemma Rsum_ext (n : nat) (f g : nat -> R) :
  (forall i, (i < n)%nat -> f i = g i) -> Rsum n f = Rsum n g.
Proof.
  induction n as [|n IH]; intros H; cbn; [reflexivity|].
  rewrite IH, H by (intros; try apply H; lia). reflexivity.
Qed.

Lemma Rsum_const_minus (n : nat) (c : R) (f : nat -> R) :
  Rsum n (fun i => c - f i) = INR n * c - Rsum n f.
Proof.
  induction n as [|n IH]; [cbn; ring|].
  cbn [Rsum]. rewrite IH, S_INR. ring.
Qed.

Lemma Rsum_scale_shift (n : nat) (a b : R) (f : nat -> R) :
  Rsum n (fun i => f i * a + b) = Rsum n f * a + INR n * b.
Proof.
  induction n as [|n IH]; [cbn; ring|].
  cbn [Rsum]. rewrite IH, S_INR. ring.
Qed.

Lemma INR_pos_neq0 (n : nat) : (1 <= n)%nat -> INR n <> 0.
Proof. intros H. apply not_0_INR. lia. Qed.

(** *** Memory *)

Lemma modify_same (h : nav_heap) p f : modify h p f p = f (h p).
Proof. unfold modify. now rewrite Nat.eqb_refl. Qed.

Lemma modify_other (h : nav_heap) p q f : q <> p -> modify h p f q = h q.
Proof.
  intros H. unfold modify. destruct (Nat.eqb_spec q p); [contradiction|reflexivity].
Qed.

(** A loop whose iteration [i] only rewrites the object at [ptr i]. *)
Section PointwiseLoop.

Context {S : Type} (get : S -> nav_heap) (body : nat -> S -> S)
        (ptr : nat -> nav_ptr)
        (F : nat -> navigation_measurement_t -> navigation_measurement_t).

Hypothesis body_get : forall i s q,
  get (body i s) q = if Nat.eqb q (ptr i) then F i (get s (ptr i)) else get s q.

Lemma for_loop_untouched (n : nat) (s : S) (q : nav_ptr) :
  (forall j, (j < n)%nat -> ptr j <> q) ->
  get (for_loop n body s) q = get s q.
Proof.
  induction n as [|n IH]; intros H; [reflexivity|].
  cbn [for_loop]. rewrite body_get.
  destruct (Nat.eqb_spec q (ptr n)) as [E|_].
  - exfalso. apply (H n); [lia | now symmetry].
  - apply IH. intros j Hj. apply H. lia.
Qed.

Lemma for_loop_touched (n : nat) (s : S) (i : nat) :
  (forall j k, (j < n)%nat -> (k < n)%nat -> ptr j = ptr k -> j = k) ->
  (i < n)%nat ->
  get (for_loop n body s) (ptr i) = F i (get s (ptr i)).
Proof.
  induction n as [|n IH]; intros Hinj Hi; [lia|].
  cbn [for_loop]. rewrite body_get.
  destruct (Nat.eqb_spec (ptr i) (ptr n)) as [E|Hne].
  - assert (i = n) by (apply Hinj; [lia | lia | exact E]). subst i.
    f_equal. apply for_loop_untouched.
    intros j Hj Hc. assert (j = n) by (apply Hinj; [lia | lia | exact Hc]). lia.
  - assert (i <> n) by (intros ->; now apply Hne).
    apply IH; [|lia]. intros j k Hj Hk. apply Hinj; lia.
Qed.

End PointwiseLoop.

(** *** The first loop *)

Lemma array_set_same a i v : array_set a i v i = v.
Proof. unfold array_set. now rewrite Nat.eqb_refl. Qed.

Lemma array_set_other a i j v : j <> i -> array_set a i v j = a j.
Proof.
  intros H. unfold array_set. destruct (Nat.eqb_spec j i); [contradiction|reflexivity].
Qed.

Lemma first_loop_body_TOTs_same (i : nat) (st : nav_locals) :
  TOTs (body1 i st) i = NavSpec.TOT_i nav_time (meas i).
Proof.
  unfold first_loop_body, NavSpec.TOT_i; cbn [TOTs].
  rewrite !array_set_same. lra.
Qed.

Lemma first_loop_body_TOTs_other (i j : nat) (st : nav_locals) :
  j <> i -> TOTs (body1 i st) j = TOTs st j.
Proof.
  intros H. unfold first_loop_body; cbn [TOTs].
  now rewrite !array_set_other by exact H.
Qed.

Lemma first_loop_body_mean (i : nat) (st : nav_locals) :
  mean_TOT (body1 i st) = mean_TOT st + NavSpec.TOT_i nav_time (meas i).
Proof.
  pose proof (first_loop_body_TOTs_same i st) as H.
  unfold first_loop_body in *; cbn [TOTs mean_TOT] in *. now rewrite H.
Qed.

Lemma first_loop_body_heap (i : nat) (st : nav_locals) (q : nav_ptr) :
  heap (body1 i st) q =
  if Nat.eqb q (nav_meas i) then effect1 i (heap st (nav_meas i))
  else heap st q.
Proof.
  pose proof (first_loop_body_TOTs_same i st) as H.
  unfold first_loop_body in *; cbn [TOTs heap] in *. rewrite H.
  unfold modify at 1. destruct (Nat.eqb_spec q (nav_meas i)) as [_|Hne].
  - now rewrite modify_same.
  - now rewrite modify_other.
Qed.

Lemma first_pass_TOTs (n i : nat) :
  (i < n)%nat -> TOTs (first_pass n) i = NavSpec.TOT_i nav_time (meas i).
Proof.
  unfold nav_first_pass.
  induction n as [|n IH]; intros Hi; [lia|]. cbn [for_loop].
  destruct (Nat.eq_dec i n) as [->|Hne].
  - apply first_loop_body_TOTs_same.
  - rewrite first_loop_body_TOTs_other by exact Hne. apply IH. lia.
Qed.

Lemma first_pass_mean (n : nat) : mean_TOT (first_pass n) = Rsum n tot.
Proof.
  unfold nav_first_pass.
  induction n as [|n IH]; cbn [for_loop Rsum]; [reflexivity|].
  now rewrite first_loop_body_mean, IH.
Qed.

Lemma nav_mean_TOT_spec (n : nat) :
  nav_mean_TOT NAV_C GPS_L1_HZ n meas nav_meas nav_time h0 = NavSpec.meanTOT n tot.
Proof. unfold nav_mean_TOT, NavSpec.meanTOT. now rewrite first_pass_mean. Qed.

(** *** The second loop *)

Local Abbreviation st1 n := (nav_first_pass NAV_C GPS_L1_HZ n meas nav_meas nav_time h0).
Local Abbreviation mean n :=
  (nav_mean_TOT NAV_C GPS_L1_HZ n meas nav_meas nav_time h0).
Local Abbreviation body2 n :=
  (second_loop_body NAV_C NOMINAL_RANGE ephemeris_t calc_sat_pos
     (TOTs (st1 n)) (mean n) nav_meas ephemerides).
Local Abbreviation before n :=
  (nav_before_correction NAV_C GPS_L1_HZ NOMINAL_RANGE ephemeris_t calc_sat_pos
     n meas nav_meas nav_time ephemerides h0).
Local Abbreviation result n :=
  (calc_navigation_measurement_ NAV_C GPS_L1_HZ NOMINAL_RANGE ephemeris_t calc_sat_pos
     n meas nav_meas nav_time ephemerides h0).

Lemma second_loop_body_heap (T : nat -> R) (m_TOT : R) (i : nat) (h : nav_heap)
    (q : nav_ptr) :
  second_loop_body NAV_C NOMINAL_RANGE ephemeris_t calc_sat_pos T m_TOT nav_meas
    ephemerides i h q =
  if Nat.eqb q (nav_meas i) then effect2 T m_TOT i (h (nav_meas i))
  else h q.
Proof.
  unfold second_loop_body, clock_correction, assign_pseudorange.
  destruct (Nat.eqb_spec q (nav_meas i)) as [->|Hne].
  - now rewrite !modify_same.
  - now rewrite !modify_other by exact Hne.
Qed.

Lemma before_pseudorange (n i : nat) :
  pseudorange (before n i) =
  (mean n - TOTs (st1 n) i) * NAV_C + NOMINAL_RANGE.
Proof.
  unfold nav_before_correction, assign_pseudorange, nav_mean_TOT.
  now rewrite modify_same.
Qed.

Lemma distinct_upto_le (n m : nat) (ptr : nat -> nav_ptr) :
  (m <= n)%nat -> distinct_upto n ptr -> distinct_upto m ptr.
Proof. intros Hle H j k Hj Hk. apply H; lia. Qed.

Lemma first_pass_heap (n i : nat) :
  distinct_upto n nav_meas -> (i < n)%nat ->
  heap (st1 n) (nav_meas i) = effect1 i (h0 (nav_meas i)).
Proof.
  intros Hd Hi. unfold nav_first_pass.
  now rewrite (for_loop_touched heap _ nav_meas effect1 first_loop_body_heap).
Qed.

(** When the second loop reaches channel [i], the measurement of that
    channel is still as the first loop left it. *)
Lemma second_loop_prefix (n i : nat) :
  distinct_upto n nav_meas -> (i < n)%nat ->
  for_loop i (body2 n) (heap (st1 n)) (nav_meas i) = effect1 i (h0 (nav_meas i)).
Proof.
  intros Hd Hi.
  rewrite (for_loop_untouched (fun h => h) _ nav_meas
             (effect2 (TOTs (st1 n)) (mean n))
             (second_loop_body_heap _ _)).
  - now apply first_pass_heap.
  - intros j Hj Hc. assert (j = i) by (apply Hd; [lia | lia | exact Hc]). lia.
Qed.

Lemma before_pseudorange_rate (n i : nat) :
  distinct_upto n nav_meas -> (i < n)%nat ->
  pseudorange_rate (before n i) = NAV_C * - carrier_freq (meas i) / GPS_L1_HZ.
Proof.
  intros Hd Hi. unfold nav_before_correction, assign_pseudorange.
  rewrite modify_same. fold (mean n).
  now rewrite second_loop_prefix.
Qed.

Lemma result_at (n i : nat) :
  distinct_upto n nav_meas -> (i < n)%nat ->
  result n (nav_meas i) =
  effect2 (TOTs (st1 n)) (mean n) i (effect1 i (h0 (nav_meas i))).
Proof.
  intros Hd Hi. unfold calc_navigation_measurement_. fold (mean n).
  rewrite (for_loop_touched (fun h => h) _ nav_meas
             (effect2 (TOTs (st1 n)) (mean n))
             (second_loop_body_heap _ _)) by assumption.
  now rewrite first_pass_heap.
Qed.

(** C1.  For [n >= 1] channels, measured into [n] distinct objects,
    [calc_navigation_measurement_] computes for the channel [i]
    [TOT_i = time_of_week_ms / 1000 + code_phase_chips / 1.023e6 +
    (nav_time - receiver_time) * code_phase_rate / 1.023e6]; the pseudorange
    before the clock correction is [(meanTOT - TOT_i) * NAV_C +
    NOMINAL_RANGE] with [meanTOT] the arithmetic mean of all [TOT_j]; the
    pseudorange rate before the correction is
    [NAV_C * (- carrier_freq / GPS_L1_HZ)]; and with the clock terms the
    propagator returns for [TOT_i] the reported pseudorange is the
    uncorrected one plus [clock_err * NAV_C] and the reported rate the
    uncorrected one minus [clock_rate_err * NAV_C]. *)
Theorem calc_navigation_measurement_spec (n i : nat) :
  (1 <= n)%nat -> distinct_upto n nav_meas -> (i < n)%nat ->
  TOT (result n (nav_meas i)) = NavSpec.TOT_i nav_time (meas i) /\
  pseudorange (before n i) =
    (NavSpec.meanTOT n tot - NavSpec.TOT_i nav_time (meas i)) * NAV_C + NOMINAL_RANGE /\
  pseudorange_rate (before n i) = NAV_C * (- carrier_freq (meas i) / GPS_L1_HZ) /\
  pseudorange (result n (nav_meas i)) =
    pseudorange (before n i)
    + clock_err (calc_sat_pos (ephemerides i) (NavSpec.TOT_i nav_time (meas i))) * NAV_C /\
  pseudorange_rate (result n (nav_meas i)) =
    pseudorange_rate (before n i)
    - clock_rate_err (calc_sat_pos (ephemerides i) (NavSpec.TOT_i nav_time (meas i)))
      * NAV_C /\
  sat_pos (result n (nav_meas i)) =
    pos (calc_sat_pos (ephemerides i) (NavSpec.TOT_i nav_time (meas i))) /\
  sat_vel (result n (nav_meas i)) =
    vel (calc_sat_pos (ephemerides i) (NavSpec.TOT_i nav_time (meas i))).
Proof.
  intros Hn Hd Hi.
  rewrite result_at, before_pseudorange, before_pseudorange_rate by assumption.
  rewrite nav_mean_TOT_spec, first_pass_TOTs by assumption.
  unfold second_loop_effect, first_loop_effect;
    cbn [TOT pseudorange pseudorange_rate sat_pos sat_vel
         set_TOT set_pseudorange_rate].
  rewrite first_pass_TOTs by assumption.
  repeat split; try reflexivity.
  unfold Rdiv. ring.
Qed.

Lemma result_TOT (n i : nat) :
  distinct_upto n nav_meas -> (i < n)%nat ->
  TOT (result n (nav_meas i)) = TOTs (st1 n) i.
Proof.
  intros Hd Hi. rewrite result_at by assumption.
  unfold second_loop_effect, first_loop_effect; cbn [TOT set_TOT set_pseudorange_rate].
  now rewrite first_pass_TOTs.
Qed.

(** The pseudorange the function returns for the channel [i], less the clock
    correction of lines 184-186, is the value assigned at line 182. *)
Lemma result_pseudorange (n i : nat) :
  distinct_upto n nav_meas -> (i < n)%nat ->
  pseudorange (result n (nav_meas i)) =
  pseudorange (before n i)
  + clock_err (calc_sat_pos (ephemerides i) (TOT (result n (nav_meas i)))) * NAV_C.
Proof.
  intros Hd Hi. rewrite result_TOT, before_pseudorange by assumption.
  rewrite result_at by assumption. reflexivity.
Qed.

(** C8.  With two channels, measured into two distinct objects, whose times
    of transmission [TOT] come out equal, [calc_navigation_measurement_]
    assigns both the pseudorange [NOMINAL_RANGE] (line 182); the two
    pseudoranges it returns are [NOMINAL_RANGE] plus the clock correction of
    the channel, so that, the corrections taken off, they are equal. *)
Theorem equal_TOT_equal_pseudorange :
  distinct_upto 2 nav_meas ->
  TOT (result 2 (nav_meas 0)) = TOT (result 2 (nav_meas 1)) ->
  pseudorange (before 2 0) = NOMINAL_RANGE /\
  pseudorange (before 2 1) = NOMINAL_RANGE /\
  pseudorange (result 2 (nav_meas 0)) =
    NOMINAL_RANGE
    + clock_err (calc_sat_pos (ephemerides 0) (TOT (result 2 (nav_meas 0)))) * NAV_C /\
  pseudorange (result 2 (nav_meas 1)) =
    NOMINAL_RANGE
    + clock_err (calc_sat_pos (ephemerides 1) (TOT (result 2 (nav_meas 1)))) * NAV_C /\
  pseudorange (result 2 (nav_meas 0))
  - clock_err (calc_sat_pos (ephemerides 0) (TOT (result 2 (nav_meas 0)))) * NAV_C
  = pseudorange (result 2 (nav_meas 1))
    - clock_err (calc_sat_pos (ephemerides 1) (TOT (result 2 (nav_meas 1)))) * NAV_C.
Proof.
  intros Hd E.
  assert (E' : TOTs (st1 2) 0%nat = TOTs (st1 2) 1%nat).
  { rewrite <- !result_TOT by (assumption || lia). exact E. }
  assert (Hm : mean 2 = TOTs (st1 2) 0%nat).
  { unfold nav_mean_TOT. rewrite first_pass_mean. cbn [Rsum].
    rewrite !first_pass_TOTs in E' by lia.
    rewrite first_pass_TOTs by lia. rewrite <- E'. cbn [INR]. field. }
  assert (H0 : pseudorange (before 2 0) = NOMINAL_RANGE).
  { rewrite before_pseudorange, Hm. ring. }
  assert (H1 : pseudorange (before 2 1) = NOMINAL_RANGE).
  { rewrite before_pseudorange, Hm, E'. ring. }
  rewrite (result_pseudorange 2 0), (result_pseudorange 2 1) by (assumption || lia).
  rewrite H0, H1. repeat split; ring.
Qed.

(** C10 (amended).  In exact arithmetic, for [n >= 1] channels measured into
    [n] distinct objects, the offsets [mean_TOT - TOT_i] of the times of
    transmission the function returns add up to zero, the values assigned at
    line 182 have the arithmetic mean [NOMINAL_RANGE], and so have the
    pseudoranges the function returns once the clock correction of each
    channel is taken off. *)
Theorem mean_offsets_cancel (n : nat) :
  (1 <= n)%nat -> distinct_upto n nav_meas ->
  Rsum n (fun i => mean n - TOT (result n (nav_meas i))) = 0 /\
  Rsum n (fun i => pseudorange (before n i)) / INR n = NOMINAL_RANGE /\
  Rsum n (fun i =>
            pseudorange (result n (nav_meas i))
            - clock_err (calc_sat_pos (ephemerides i) (TOT (result n (nav_meas i))))
              * NAV_C) / INR n
  = NOMINAL_RANGE.
Proof.
  intros Hn Hd. pose proof (INR_pos_neq0 n Hn) as Hn0.
  assert (Hoff : Rsum n (fun i => mean n - TOTs (st1 n) i) = 0).
  { rewrite Rsum_const_minus.
    rewrite (Rsum_ext n (TOTs (st1 n)) tot) by (intros; now apply first_pass_TOTs).
    unfold nav_mean_TOT. rewrite first_pass_mean. field. exact Hn0. }
  assert (Hbefore : Rsum n (fun i => pseudorange (before n i)) / INR n = NOMINAL_RANGE).
  { rewrite (Rsum_ext n _ (fun i => (mean n - TOTs (st1 n) i) * NAV_C + NOMINAL_RANGE))
      by (intros; apply before_pseudorange).
    rewrite (Rsum_scale_shift n NAV_C NOMINAL_RANGE (fun i => mean n - TOTs (st1 n) i)).
    rewrite Hoff. field. exact Hn0. }
  split; [|split].
  - transitivity (Rsum n (fun i => mean n - TOTs (st1 n) i)); [|exact Hoff].
    apply Rsum_ext. intros i Hi. now rewrite result_TOT.
  - exact Hbefore.
  - transitivity (Rsum n (fun i => pseudorange (before n i)) / INR n); [|exact Hbefore].
    f_equal. apply Rsum_ext. intros i Hi.
    rewrite result_pseudorange by assumption. ring.
Qed.

End NavigationProperties.

(** *** Arrays of measurements *)

Section NavigationArrays.

Variables NAV_C GPS_L1_HZ NOMINAL_RANGE : R.
Variable ephemeris_t : Type.
Variable calc_sat_pos : ephemeris_t -> R -> sat_state.

Lemma element_pointers_at (n i : nat) :
  (i < n)%nat -> element_pointers n i = i.
Proof.
  unfold element_pointers. induction n as [|n IH]; intros Hi; [lia|].
  cbn [for_loop]. destruct (Nat.eqb_spec i n) as [E|Hne]; [now symmetry|].
  apply IH. lia.
Qed.

Lemma element_pointers_distinct (n : nat) : distinct_upto n (element_pointers n).
Proof.
  intros j k Hj Hk. now rewrite !element_pointers_at by assumption.
Qed.

(** X8.  The caller of [calc_navigation_measurement] passes arrays, whose
    elements are distinct objects: the element [i] of its result is the
    corrected measurement of the channel [i]. *)
Lemma calc_navigation_measurement_array
    (n : nat) (meas : nat -> channel_measurement_t)
    (nav_meas : nat -> navigation_measurement_t) (nav_time : R)
    (ephemerides : nat -> ephemeris_t) (i : nat) :
  (i < n)%nat ->
  let tot := fun j => NavSpec.TOT_i nav_time (meas j) in
  let s := calc_sat_pos (ephemerides i) (tot i) in
  let out := calc_navigation_measurement NAV_C GPS_L1_HZ NOMINAL_RANGE ephemeris_t
               calc_sat_pos n meas nav_meas nav_time ephemerides i in
  TOT out = tot i /\
  pseudorange out =
    (NavSpec.meanTOT n tot - tot i) * NAV_C + NOMINAL_RANGE + clock_err s * NAV_C /\
  pseudorange_rate out =
    NAV_C * - carrier_freq (meas i) / GPS_L1_HZ - clock_rate_err s * NAV_C /\
  sat_pos out = pos s /\ sat_vel out = vel s.
Proof.
  intros Hi tot s out. subst out tot s. unfold calc_navigation_measurement.
  pose proof (result_at NAV_C GPS_L1_HZ NOMINAL_RANGE ephemeris_t calc_sat_pos meas
                (element_pointers n) nav_time ephemerides nav_meas n i
                (element_pointers_distinct n) Hi) as H.
  rewrite element_pointers_at in H by exact Hi. rewrite H.
  unfold second_loop_effect, first_loop_effect;
    cbn [TOT pseudorange pseudorange_rate sat_pos sat_vel
         set_TOT set_pseudorange_rate].
  rewrite nav_mean_TOT_spec, first_pass_TOTs by assumption.
  repeat split; reflexivity.
Qed.

End NavigationArrays.

(** *** A sample run *)

Section NavigationSample.

Local Abbreviation first_pass n :=
  (nav_first_pass Sample.NAV_C Sample.GPS_L1_HZ n Sample.meas Sample.nav_meas 0
     Sample.heap).
Local Abbreviation mean n :=
  (nav_mean_TOT Sample.NAV_C Sample.GPS_L1_HZ n Sample.meas Sample.nav_meas 0
     Sample.heap).
Local Abbreviation before n :=
  (nav_before_correction Sample.NAV_C Sample.GPS_L1_HZ Sample.NOMINAL_RANGE unit
     Sample.calc_sat_pos n Sample.meas Sample.nav_meas 0 Sample.ephemerides
     Sample.heap).
Local Abbreviation result n :=
  (calc_navigation_measurement_ Sample.NAV_C Sample.GPS_L1_HZ Sample.NOMINAL_RANGE
     unit Sample.calc_sat_pos n Sample.meas Sample.nav_meas 0 Sample.ephemerides
     Sample.heap).
Local Abbreviation tot := (fun j => NavSpec.TOT_i 0 (Sample.meas j)).

Lemma sample_pointers_distinct (n : nat) : distinct_upto n Sample.nav_meas.
Proof. intros j k _ _ H. exact H. Qed.

Lemma calc_navigation_measurement_spec_witness :
  TOT (result 2 (Sample.nav_meas 0)) = NavSpec.TOT_i 0 (Sample.meas 0) /\
  pseudorange (before 2 0) =
    (NavSpec.meanTOT 2 tot - NavSpec.TOT_i 0 (Sample.meas 0)) * Sample.NAV_C
    + Sample.NOMINAL_RANGE /\
  pseudorange_rate (before 2 0) =
    Sample.NAV_C * (- carrier_freq (Sample.meas 0) / Sample.GPS_L1_HZ) /\
  pseudorange (result 2 (Sample.nav_meas 0)) =
    pseudorange (before 2 0)
    + clock_err (Sample.calc_sat_pos (Sample.ephemerides 0)
                   (NavSpec.TOT_i 0 (Sample.meas 0))) * Sample.NAV_C /\
  pseudorange_rate (result 2 (Sample.nav_meas 0)) =
    pseudorange_rate (before 2 0)
    - clock_rate_err (Sample.calc_sat_pos (Sample.ephemerides 0)
                        (NavSpec.TOT_i 0 (Sample.meas 0))) * Sample.NAV_C /\
  sat_pos (result 2 (Sample.nav_meas 0)) =
    pos (Sample.calc_sat_pos (Sample.ephemerides 0) (NavSpec.TOT_i 0 (Sample.meas 0))) /\
  sat_vel (result 2 (Sample.nav_meas 0)) =
    vel (Sample.calc_sat_pos (Sample.ephemerides 0) (NavSpec.TOT_i 0 (Sample.meas 0))).
Proof.
  apply (calc_navigation_measurement_spec Sample.NAV_C Sample.GPS_L1_HZ
           Sample.NOMINAL_RANGE unit Sample.calc_sat_pos Sample.meas Sample.nav_meas 0
           Sample.ephemerides Sample.heap 2 0).
  - lia.
  - apply sample_pointers_distinct.
  - lia.
Defined.

Lemma equal_TOT_equal_pseudorange_witness :
  distinct_upto 2 Sample.nav_meas /\
  TOT (result 2 (Sample.nav_meas 0)) = TOT (result 2 (Sample.nav_meas 1)) /\
  pseudorange (before 2 0) = Sample.NOMINAL_RANGE /\
  pseudorange (before 2 1) = Sample.NOMINAL_RANGE /\
  pseudorange (result 2 (Sample.nav_meas 0)) =
    Sample.NOMINAL_RANGE
    + clock_err (Sample.calc_sat_pos (Sample.ephemerides 0)
                   (TOT (result 2 (Sample.nav_meas 0)))) * Sample.NAV_C /\
  pseudorange (result 2 (Sample.nav_meas 1)) =
    Sample.NOMINAL_RANGE
    + clock_err (Sample.calc_sat_pos (Sample.ephemerides 1)
                   (TOT (result 2 (Sample.nav_meas 1)))) * Sample.NAV_C /\
  pseudorange (result 2 (Sample.nav_meas 0))
  - clock_err (Sample.calc_sat_pos (Sample.ephemerides 0)
                 (TOT (result 2 (Sample.nav_meas 0)))) * Sample.NAV_C
  = pseudorange (result 2 (Sample.nav_meas 1))
    - clock_err (Sample.calc_sat_pos (Sample.ephemerides 1)
                   (TOT (result 2 (Sample.nav_meas 1)))) * Sample.NAV_C.
Proof.
  assert (E : TOT (result 2 (Sample.nav_meas 0)) = TOT (result 2 (Sample.nav_meas 1))).
  { rewrite !result_TOT by (apply sample_pointers_distinct || lia).
    rewrite !first_pass_TOTs by lia. reflexivity. }
  split; [apply sample_pointers_distinct|]. split; [exact E|].
  exact (equal_TOT_equal_pseudorange Sample.NAV_C Sample.GPS_L1_HZ
           Sample.NOMINAL_RANGE unit Sample.calc_sat_pos Sample.meas Sample.nav_meas 0
           Sample.ephemerides Sample.heap (sample_pointers_distinct 2) E).
Defined.

Lemma mean_offsets_cancel_witness :
  Rsum 2 (fun i => mean 2 - TOT (result 2 (Sample.nav_meas i))) = 0 /\
  Rsum 2 (fun i => pseudorange (before 2 i)) / INR 2 = Sample.NOMINAL_RANGE /\
  Rsum 2 (fun i =>
            pseudorange (result 2 (Sample.nav_meas i))
            - clock_err (Sample.calc_sat_pos (Sample.ephemerides i)
                           (TOT (result 2 (Sample.nav_meas i)))) * Sample.NAV_C) / INR 2
  = Sample.NOMINAL_RANGE.
Proof.
  apply (mean_offsets_cancel Sample.NAV_C Sample.GPS_L1_HZ Sample.NOMINAL_RANGE unit
           Sample.calc_sat_pos Sample.meas Sample.nav_meas 0 Sample.ephemerides
           Sample.heap 2).
  - lia.
  - apply sample_pointers_distinct.
Defined.

End NavigationSample.

(** *** A run in binary64 *)

Section NavigationBinary64.

Import Floats.

Local Abbreviation offset chips :=
  (Binary64.offset 0%float Binary64.channels (Binary64.channel chips)).
Local Abbreviation pseudorange chips :=
  (Binary64.pseudorange Binary64.NAV_C Binary64.NOMINAL_RANGE 0%float
     Binary64.channels (Binary64.channel chips)).

(** C10, as stated, fails: the cancellation is not exact in the arithmetic
    of the code.  For two channels at 70 ms of the week with the code phases
    0 and 1 chip (navigation time and receiver time 0) the two offsets
    [mean_TOT - TOTs[i]] of line 182 add up to [-2^-56], in binary64 and as
    real numbers; and with [NAV_C = 299792458] and
    [NOMINAL_RANGE = 22980000] the mean of the two pseudoranges assigned
    there is not [NOMINAL_RANGE]. *)
Lemma mean_offsets_binary64_counterexample :
  (offset 0 + offset 1)%float = (-0x1p-56)%float /\
  Binary64.B2R (offset 0%float) + Binary64.B2R (offset 1%float) = - / 2 ^ 56 /\
  Binary64.B2R (offset 0%float) + Binary64.B2R (offset 1%float) <> 0 /\
  (Binary64.B2R (pseudorange 0%float) + Binary64.B2R (pseudorange 1%float)) / 2
  = Binary64.B2R Binary64.NOMINAL_RANGE - / 2 ^ 29 /\
  (Binary64.B2R (pseudorange 0%float) + Binary64.B2R (pseudorange 1%float)) / 2
  <> Binary64.B2R Binary64.NOMINAL_RANGE.
Proof.
  split; [vm_compute; reflexivity|].
  binary64_value (offset 0%float). binary64_value (offset 1%float).
  binary64_value (pseudorange 0%float). binary64_value (pseudorange 1%float).
  binary64_value Binary64.NOMINAL_RANGE.
  repeat split; lra.
Qed.

End NavigationBinary64.

(** ** C library functions *)

Section CMathProperties.

Import CMath.

Lemma Ztrunc_IZR (z : Z) : Ztrunc (IZR z) = z.
Proof.
  unfold Ztrunc. destruct (Rle_dec 0 (IZR z)).
  - apply ZfloorZ.
  - apply Zceil_eq. lra.
Qed.

Lemma double_to_int_ceil (x : R) :
  (INT_MIN <= Zceil x <= INT_MAX)%Z ->
  double_to_int (ceil x) = Some (Zceil x).
Proof.
  intros H. unfold double_to_int, ceil, in_int_range. rewrite Ztrunc_IZR.
  destruct (Z.leb_spec INT_MIN (Zceil x)); [|lia].
  destruct (Z.leb_spec (Zceil x) INT_MAX); [|lia].
  reflexivity.
Qed.







End CMathProperties.

(** ** Correlator *)

Section CorrelatorProperties.

Import CMath.

Variables samples code : Z -> Z.
Variables code_step carr_step : R.

Local Abbreviation step :=
  (correlate_step samples code code_step carr_step (sin carr_step) (cos carr_step)).
Local Abbreviation loop :=
  (correlate_loop samples code code_step carr_step (sin carr_step) (cos carr_step)).

Lemma bind_Some {A B : Type} (x : option A) (f : A -> option B) (b : B) :
  bind x f = Some b -> exists a, x = Some a /\ f a = Some b.
Proof. destruct x as [a|]; cbn; [eauto | discriminate]. Qed.

(** *** Chip indices *)

Lemma IZR_1023_0 : 1023.0 = 1023.
Proof. lra. Qed.

Lemma chip_index_ceil (x : R) :
  (INT_MIN <= Zceil x <= INT_MAX)%Z -> chip_index x = Some (Zceil x).
Proof. apply double_to_int_ceil. Qed.

Lemma Zceil_between (x : R) (lo hi : Z) :
  IZR lo - 1 < x -> x <= IZR hi -> (lo <= Zceil x <= hi)%Z.
Proof.
  intros Hlo Hhi. pose proof (Zceil_bound x) as [H1 H2]. split.
  - assert (H : IZR (lo - 1) < IZR (Zceil x)) by (rewrite minus_IZR; lra).
    apply lt_IZR in H. lia.
  - assert (H : IZR (Zceil x) < IZR (hi + 1)) by (rewrite plus_IZR; lra).
    apply lt_IZR in H. lia.
Qed.

(** While the code phase is inside the period, the three indices are
    defined; the early and the prompt index lie in [[0, 1023]] and the late
    index in [[1, 1024]]. *)
Lemma chip_indices_bounds (cp : R) :
  0 <= cp < 1023 ->
  exists e p l,
    early_index cp = Some e /\ prompt_index cp = Some p /\ late_index cp = Some l /\
    (0 <= e <= 1023)%Z /\ (0 <= p <= 1023)%Z /\ (1 <= l <= 1024)%Z.
Proof.
  intros Hcp.
  assert (He : (0 <= Zceil (cp - 0.5) <= 1023)%Z) by (apply Zceil_between; lra).
  assert (Hp : (0 <= Zceil cp <= 1023)%Z) by (apply Zceil_between; lra).
  assert (Hl : (1 <= Zceil (cp + 0.5) <= 1024)%Z) by (apply Zceil_between; lra).
  exists (Zceil (cp - 0.5)), (Zceil cp), (Zceil (cp + 0.5)).
  unfold early_index, prompt_index, late_index.
  rewrite !chip_index_ceil by (unfold INT_MIN, INT_MAX; lia).
  repeat split; lia.
Qed.

(** *** The loop *)

Lemma correlate_step_phases (i : Z) (st st' : correlator_state) :
  step i st = Some st' ->
  code_phase st' = code_phase st + code_step /\
  carr_phase st' = carr_phase st + carr_step.
Proof.
  unfold correlate_step. intros H.
  apply bind_Some in H as (iE & _ & H).
  apply bind_Some in H as (iP & _ & H).
  apply bind_Some in H as (iL & _ & H).
  injection H as <-. cbn. split; reflexivity.
Qed.

Lemma correlate_loop_phases (k : nat) (st0 st : correlator_state) :
  loop k st0 = Some st ->
  code_phase st = code_phase st0 + INR k * code_step /\
  carr_phase st = carr_phase st0 + INR k * carr_step.
Proof.
  revert st. induction k as [|k IH]; intros st H.
  - injection H as <-. cbn. split; ring.
  - cbn [correlate_loop] in H. apply bind_Some in H as (st' & Hk & Hs).
    destruct (IH _ Hk) as [IH1 IH2].
    destruct (correlate_step_phases _ _ _ Hs) as [H1 H2].
    rewrite H1, H2, IH1, IH2, S_INR. split; ring.
Qed.

Lemma correlate_step_defined (i : Z) (st : correlator_state) :
  0 <= code_phase st < 1023 -> exists st', step i st = Some st'.
Proof.
  intros Hcp. destruct (chip_indices_bounds _ Hcp) as (e & p & l & He & Hp & Hl & _).
  unfold correlate_step. rewrite He, Hp, Hl. cbn [bind]. eauto.
Qed.

Lemma correlate_loop_defined (k : nat) (st0 : correlator_state) :
  0 <= code_phase st0 -> 0 < code_step ->
  (forall j, (j < k)%nat -> code_phase st0 + INR j * code_step < 1023) ->
  exists st, loop k st0 = Some st.
Proof.
  intros H0 Hs. induction k as [|k IH]; intros Hk; [cbn; eauto|].
  destruct IH as [st Hst]; [intros; apply Hk; lia|].
  cbn [correlate_loop]. rewrite Hst. cbn [bind].
  apply correlate_step_defined.
  destruct (correlate_loop_phases _ _ _ Hst) as [-> _].
  split; [|apply Hk; lia].
  pose proof (pos_INR k). nra.
Qed.

(** *** The number of samples *)





(** *** The call *)



(** *** The sums in closed form *)

Local Abbreviation csum p offset replica phi :=
  (correlation_sum samples code p code_step offset replica phi carr_step).

Lemma chip_index_Some (x : R) (z : Z) : chip_index x = Some z -> z = Zceil x.
Proof.
  unfold chip_index, double_to_int, ceil. rewrite Ztrunc_IZR.
  destruct (in_int_range (Zceil x)); [|discriminate]. now intros [= <-].
Qed.

(** One step of the rotation: the replica follows the carrier phase and the
    sums grow by one term. *)
Lemma correlate_step_closed_form (i : Z) (st st' : correlator_state) :
  carr_sin st = sin (carr_phase st) -> carr_cos st = cos (carr_phase st) ->
  step i st = Some st' ->
  carr_sin st' = sin (carr_phase st') /\ carr_cos st' = cos (carr_phase st') /\
  I_E st' = I_E st + IZR (code (Zceil (code_phase st + - 0.5)))
                     * (sin (carr_phase st) * IZR (samples i)) /\
  Q_E st' = Q_E st + IZR (code (Zceil (code_phase st + - 0.5)))
                     * (cos (carr_phase st) * IZR (samples i)) /\
  I_P st' = I_P st + IZR (code (Zceil (code_phase st + 0)))
                     * (sin (carr_phase st) * IZR (samples i)) /\
  Q_P st' = Q_P st + IZR (code (Zceil (code_phase st + 0)))
                     * (cos (carr_phase st) * IZR (samples i)) /\
  I_L st' = I_L st + IZR (code (Zceil (code_phase st + 0.5)))
                     * (sin (carr_phase st) * IZR (samples i)) /\
  Q_L st' = Q_L st + IZR (code (Zceil (code_phase st + 0.5)))
                     * (cos (carr_phase st) * IZR (samples i)).
Proof.
  intros Hsin Hcos H. unfold correlate_step in H.
  apply bind_Some in H as (iE & HE & H).
  apply bind_Some in H as (iP & HP & H).
  apply bind_Some in H as (iL & HL & H).
  apply chip_index_Some in HE, HP, HL.
  replace (code_phase st - 0.5) with (code_phase st + - 0.5) in HE by lra.
  replace (code_phase st) with (code_phase st + 0) in HP at 1 by lra.
  subst iE iP iL. injection H as <-. cbn.
  rewrite Hsin, Hcos, <- sin_plus, <- cos_plus.
  pose proof (sin2_cos2 (carr_phase st + carr_step)) as Hunit. unfold Rsqr in Hunit.
  set (S := sin (carr_phase st + carr_step)) in *.
  set (C := cos (carr_phase st + carr_step)) in *.
  replace ((3.0 - S * S - C * C) / 2.0) with 1
    by (replace (C * C) with (1 - S * S) by lra; lra).
  repeat split; ring.
Qed.

Lemma correlate_loop_closed_form (p phi : R) (k : nat) (st : correlator_state) :
  loop k (correlator_init p phi) = Some st ->
  carr_sin st = sin (carr_phase st) /\ carr_cos st = cos (carr_phase st) /\
  I_E st = csum p (- 0.5) sin phi k /\ Q_E st = csum p (- 0.5) cos phi k /\
  I_P st = csum p 0 sin phi k /\ Q_P st = csum p 0 cos phi k /\
  I_L st = csum p 0.5 sin phi k /\ Q_L st = csum p 0.5 cos phi k.
Proof.
  revert st. induction k as [|k IH]; intros st H.
  - injection H as <-. cbn. repeat split; reflexivity.
  - cbn [correlate_loop] in H. apply bind_Some in H as (st' & Hk & Hs).
    destruct (IH _ Hk) as (Hsin & Hcos & HIE & HQE & HIP & HQP & HIL & HQL).
    destruct (correlate_loop_phases _ _ _ Hk) as [Hcp Hph].
    cbn [correlator_init code_phase carr_phase] in Hcp, Hph.
    destruct (correlate_step_closed_form _ _ _ Hsin Hcos Hs)
      as (Hsin' & Hcos' & -> & -> & -> & -> & -> & ->).
    rewrite HIE, HQE, HIP, HQP, HIL, HQL, Hcp, Hph.
    unfold correlation_sum. cbn [Rsum].
    repeat split; try assumption; reflexivity.
Qed.

End CorrelatorProperties.

(** ** Correlator, with the rounding of the code phase *)

Section RoundedCorrelator.

Import CMath.

Variable fl : R -> R.
Variables samples code : Z -> Z.
Variables code_step carr_step : R.

Local Abbreviation step :=
  (Rounded.correlate_step fl samples code code_step carr_step
     (sin carr_step) (cos carr_step)).
Local Abbreviation loop :=
  (Rounded.correlate_loop fl samples code code_step carr_step
     (sin carr_step) (cos carr_step)).
Local Abbreviation call :=
  (Rounded.track_correlate fl samples code).
Local Abbreviation cp_at p := (Rounded.code_phase_at fl p code_step).
Local Abbreviation rsum index p replica phi :=
  (Rounded.correlation_sum fl samples code index p code_step replica phi carr_step).
Local Abbreviation early := (fun cp : R => fl (cp - 0.5)).
Local Abbreviation prompt := (fun cp : R => cp).
Local Abbreviation late := (fun cp : R => fl (cp + 0.5)).

(** *** The loop *)

(** One pass through the loop: the code phase takes a rounded addition,
    the replica follows the carrier phase and the sums grow by one term. *)
Lemma rounded_step_closed_form (i : Z) (st st' : correlator_state) :
  carr_sin st = sin (carr_phase st) -> carr_cos st = cos (carr_phase st) ->
  step i st = Some st' ->
  code_phase st' = fl (code_phase st + code_step) /\
  carr_phase st' = carr_phase st + carr_step /\
  carr_sin st' = sin (carr_phase st') /\ carr_cos st' = cos (carr_phase st') /\
  I_E st' = I_E st + IZR (code (Zceil (early (code_phase st))))
                     * (sin (carr_phase st) * IZR (samples i)) /\
  Q_E st' = Q_E st + IZR (code (Zceil (early (code_phase st))))
                     * (cos (carr_phase st) * IZR (samples i)) /\
  I_P st' = I_P st + IZR (code (Zceil (prompt (code_phase st))))
                     * (sin (carr_phase st) * IZR (samples i)) /\
  Q_P st' = Q_P st + IZR (code (Zceil (prompt (code_phase st))))
                     * (cos (carr_phase st) * IZR (samples i)) /\
  I_L st' = I_L st + IZR (code (Zceil (late (code_phase st))))
                     * (sin (carr_phase st) * IZR (samples i)) /\
  Q_L st' = Q_L st + IZR (code (Zceil (late (code_phase st))))
                     * (cos (carr_phase st) * IZR (samples i)).
Proof.
  intros Hsin Hcos H. unfold Rounded.correlate_step in H.
  apply bind_Some in H as (iE & HE & H).
  apply bind_Some in H as (iP & HP & H).
  apply bind_Some in H as (iL & HL & H).
  apply chip_index_Some in HE, HP, HL.
  subst iE iP iL. injection H as <-. cbn.
  rewrite Hsin, Hcos, <- sin_plus, <- cos_plus.
  pose proof (sin2_cos2 (carr_phase st + carr_step)) as Hunit. unfold Rsqr in Hunit.
  set (S := sin (carr_phase st + carr_step)) in *.
  set (C := cos (carr_phase st + carr_step)) in *.
  replace ((3.0 - S * S - C * C) / 2.0) with 1
    by (replace (C * C) with (1 - S * S) by lra; lra).
  repeat split; ring.
Qed.

Lemma rounded_loop_closed_form (p phi : R) (k : nat) (st : correlator_state) :
  loop k (correlator_init p phi) = Some st ->
  code_phase st = cp_at p k /\
  carr_phase st = phi + INR k * carr_step /\
  carr_sin st = sin (carr_phase st) /\ carr_cos st = cos (carr_phase st) /\
  I_E st = rsum early p sin phi k /\ Q_E st = rsum early p cos phi k /\
  I_P st = rsum prompt p sin phi k /\ Q_P st = rsum prompt p cos phi k /\
  I_L st = rsum late p sin phi k /\ Q_L st = rsum late p cos phi k.
Proof.
  revert st. induction k as [|k IH]; intros st H.
  - injection H as <-. cbn. repeat split; try reflexivity; ring.
  - cbn [Rounded.correlate_loop] in H. apply bind_Some in H as (st' & Hk & Hs).
    destruct (IH _ Hk) as (Hcp & Hph & Hsin & Hcos & HIE & HQE & HIP & HQP & HIL & HQL).
    destruct (rounded_step_closed_form _ _ _ Hsin Hcos Hs)
      as (-> & Hph' & Hsin' & Hcos' & -> & -> & -> & -> & -> & ->).
    rewrite HIE, HQE, HIP, HQP, HIL, HQL.
    unfold Rounded.correlation_sum. cbn [Rsum Rounded.code_phase_at].
    rewrite <- Hcp, <- Hph.
    repeat split; try assumption; try reflexivity.
    rewrite Hph', Hph, S_INR. ring.
Qed.

(** *** The call *)

Lemma rounded_track_correlate_inv (p phi : R) (r : correlator_result) :
  call p code_step phi carr_step = Some r ->
  exists z st,
    code_step <> 0 /\
    double_to_int (ceil (fl (fl (1023 - p) / code_step))) = Some z /\
    num_samples r = int_to_u32 z /\
    loop (Z.to_nat (num_samples r)) (correlator_init p phi) = Some st /\
    init_code_phase' r = fl (code_phase st - 1023) /\
    init_carr_phase' r = fmod (carr_phase st) (2 * PI) /\
    I_E' r = I_E st /\ Q_E' r = Q_E st /\ I_P' r = I_P st /\ Q_P' r = Q_P st /\
    I_L' r = I_L st /\ Q_L' r = Q_L st.
Proof.
  unfold Rounded.track_correlate, Rounded.epoch_samples. intros H.
  destruct (Req_dec_T code_step 0) as [|Hs]; [discriminate|].
  rewrite IZR_1023_0 in H.
  apply bind_Some in H as (n & Hn & H).
  apply bind_Some in Hn as (z & Hz & Hn). injection Hn as <-.
  apply bind_Some in H as (st & Hst & H).
  injection H as <-. cbn. exists z, st. repeat split; assumption.
Qed.

Lemma double_to_int_ceil_Some (x : R) (z : Z) :
  double_to_int (ceil x) = Some z -> z = Zceil x /\ (INT_MIN <= z <= INT_MAX)%Z.
Proof.
  unfold double_to_int, ceil, in_int_range. rewrite Ztrunc_IZR.
  destruct (Z.leb_spec INT_MIN (Zceil x)); [|discriminate].
  destruct (Z.leb_spec (Zceil x) INT_MAX); [|discriminate].
  cbn. intros [= <-]. split; [reflexivity | unfold INT_MIN, INT_MAX in *; lia].
Qed.

(** The sums of a call that returns. *)
Lemma rounded_track_correlate_sums (p phi : R) (r : correlator_result) :
  call p code_step phi carr_step = Some r ->
  I_E' r = rsum early p sin phi (Z.to_nat (num_samples r)) /\
  Q_E' r = rsum early p cos phi (Z.to_nat (num_samples r)) /\
  I_P' r = rsum prompt p sin phi (Z.to_nat (num_samples r)) /\
  Q_P' r = rsum prompt p cos phi (Z.to_nat (num_samples r)) /\
  I_L' r = rsum late p sin phi (Z.to_nat (num_samples r)) /\
  Q_L' r = rsum late p cos phi (Z.to_nat (num_samples r)).
Proof.
  intros H.
  destruct (rounded_track_correlate_inv p phi r H)
    as (z & st & _ & _ & _ & Hst & _ & _ & -> & -> & -> & -> & -> & ->).
  destruct (rounded_loop_closed_form p phi _ st Hst) as (_ & _ & _ & _ & Hsums).
  exact Hsums.
Qed.

(** *** The rounding *)

Hypothesis Hfl : Rounded.round_to_nearest fl.

Lemma fl_monotone (x y : R) : x <= y -> fl x <= fl y.
Proof. apply Hfl. Qed.

Lemma fl_quarters (z : Z) : (Z.abs z <= 2 ^ 53)%Z -> fl (IZR z / 4) = IZR z / 4.
Proof. apply Hfl. Qed.

Lemma fl_integer (z : Z) : (Z.abs z <= 2 ^ 51)%Z -> fl (IZR z) = IZR z.
Proof.
  intros H. replace (IZR z) with (IZR (4 * z) / 4) by (rewrite mult_IZR; lra).
  apply fl_quarters. lia.
Qed.

Lemma fl_upper (x : R) (c : Z) : (Z.abs c <= 2 ^ 51)%Z -> x <= IZR c -> fl x <= IZR c.
Proof. intros Hc Hx. rewrite <- (fl_integer c Hc). now apply fl_monotone. Qed.

Lemma fl_lower (x : R) (c : Z) : (Z.abs c <= 2 ^ 51)%Z -> IZR c <= x -> IZR c <= fl x.
Proof. intros Hc Hx. rewrite <- (fl_integer c Hc). now apply fl_monotone. Qed.

Lemma Zceil_lower (x : R) (c : Z) : IZR c <= x -> (c <= Zceil x)%Z.
Proof.
  intros H. pose proof (Zceil_bound x) as [_ Hhi].
  assert (Hlt : IZR (c - 1) < IZR (Zceil x)) by (rewrite minus_IZR; lra).
  apply lt_IZR in Hlt. lia.
Qed.

Lemma Zceil_upper (x : R) (c : Z) : x <= IZR c -> (Zceil x <= c)%Z.
Proof.
  intros H. pose proof (Zceil_bound x) as [Hlo _].
  assert (Hlt : IZR (Zceil x) < IZR (c + 1)) by (rewrite plus_IZR; lra).
  apply lt_IZR in Hlt. lia.
Qed.


(** *** The number of samples *)

Lemma rounded_quotient_nonneg (p : R) :
  valid_epoch p code_step ->
  0 <= fl (1023 - p) / code_step /\ 0 <= fl (fl (1023 - p) / code_step).
Proof.
  intros [Hp Hs].
  assert (Hy : 0 <= fl (1023 - p)).
  { apply (fl_lower _ 0); [lia | lra]. }
  assert (Hx : 0 <= fl (1023 - p) / code_step).
  { apply Rmult_le_pos; [exact Hy | left; now apply Rinv_0_lt_compat]. }
  split; [exact Hx|]. apply (fl_lower _ 0); [lia | exact Hx].
Qed.

Lemma rounded_epoch_samples_valid (p : R) :
  valid_epoch p code_step ->
  (Zceil (fl (fl (1023 - p) / code_step)) <= INT_MAX)%Z ->
  Rounded.epoch_samples fl p code_step = Some (Zceil (fl (fl (1023 - p) / code_step))).
Proof.
  intros Hv Hmax. destruct (rounded_quotient_nonneg p Hv) as [_ Hq].
  pose proof (Zceil_lower _ 0 Hq) as H0.
  unfold Rounded.epoch_samples.
  destruct (Req_dec_T code_step 0) as [E|_]; [destruct Hv as [_ Hs]; lra|].
  rewrite IZR_1023_0.
  rewrite double_to_int_ceil by (unfold INT_MIN, INT_MAX in *; lia).
  cbn [bind]. unfold int_to_u32.
  rewrite Z.mod_small by (unfold INT_MAX in *; lia). reflexivity.
Qed.


(** *** The chip indices are defined *)

Lemma Zceil_code_step_pos : 0 < code_step -> (1 <= Zceil code_step)%Z.
Proof.
  intros Hs. pose proof (Zceil_bound code_step) as [_ Hhi].
  assert (H : IZR 0 < IZR (Zceil code_step)) by lra.
  apply lt_IZR in H. lia.
Qed.

(** A crude bound of the accumulated code phase: every addition moves it
    by [ceil code_step] at most. *)
Lemma code_phase_at_bounds (p : R) (k : nat) :
  valid_epoch p code_step ->
  (1023 + Z.of_nat k * Zceil code_step <= 2 ^ 51)%Z ->
  0 <= cp_at p k <= IZR (1023 + Z.of_nat k * Zceil code_step).
Proof.
  intros [Hp Hs]. pose proof (Zceil_code_step_pos Hs) as HS.
  pose proof (Zceil_bound code_step) as [_ HSs].
  induction k as [|k IH]; intros Hk.
  - cbn [Rounded.code_phase_at]. replace (1023 + Z.of_nat 0 * Zceil code_step)%Z
      with 1023%Z by lia. lra.
  - cbn [Rounded.code_phase_at].
    destruct IH as [IH0 IH1]; [nia|].
    split.
    + apply (fl_lower _ 0); [lia | lra].
    + apply fl_upper; [nia|].
      replace (1023 + Z.of_nat (S k) * Zceil code_step)%Z
        with ((1023 + Z.of_nat k * Zceil code_step) + Zceil code_step)%Z by lia.
      rewrite plus_IZR. lra.
Qed.

Lemma rounded_indices_defined (cp : R) (B : Z) :
  0 <= cp <= IZR B -> (B + 1 <= INT_MAX)%Z ->
  exists e pr l,
    Rounded.early_index fl cp = Some e /\ prompt_index cp = Some pr /\
    Rounded.late_index fl cp = Some l.
Proof.
  intros [H0 H1] HB. unfold INT_MAX in HB.
  assert (HB0 : (0 <= B)%Z).
  { apply le_IZR. lra. }
  assert (He : (-1 <= Zceil (fl (cp - 0.5)) <= B)%Z).
  { split.
    - apply Zceil_lower, fl_lower; [lia | lra].
    - apply Zceil_upper, fl_upper; [lia | lra]. }
  assert (Hp : (0 <= Zceil cp <= B)%Z).
  { split; [apply Zceil_lower | apply Zceil_upper]; lra. }
  assert (Hl : (0 <= Zceil (fl (cp + 0.5)) <= B + 1)%Z).
  { split.
    - apply Zceil_lower, fl_lower; [lia | lra].
    - apply Zceil_upper, fl_upper; [lia | rewrite plus_IZR; lra]. }
  exists (Zceil (fl (cp - 0.5))), (Zceil cp), (Zceil (fl (cp + 0.5))).
  unfold Rounded.early_index, prompt_index, Rounded.late_index.
  rewrite !chip_index_ceil by (unfold INT_MIN, INT_MAX; lia).
  repeat split; reflexivity.
Qed.

Lemma rounded_loop_defined (p phi : R) (k : nat) :
  valid_epoch p code_step ->
  (1024 + Z.of_nat k * Zceil code_step <= INT_MAX)%Z ->
  exists st, loop k (correlator_init p phi) = Some st.
Proof.
  intros Hv. pose proof (Zceil_code_step_pos (proj2 Hv)) as HS.
  unfold INT_MAX.
  induction k as [|k IH]; intros Hk; [cbn; eauto|].
  destruct IH as [st Hst]; [nia|].
  cbn [Rounded.correlate_loop]. rewrite Hst. cbn [bind].
  destruct (rounded_loop_closed_form p phi k st Hst) as (Hcp & _).
  destruct (rounded_indices_defined (code_phase st)
              (1023 + Z.of_nat k * Zceil code_step)) as (e & pr & l & He & Hp & Hl).
  - rewrite Hcp. apply code_phase_at_bounds; [exact Hv | nia].
  - unfold INT_MAX. nia.
  - unfold Rounded.correlate_step. rewrite He, Hp, Hl. cbn [bind]. eauto.
Qed.

(** Without rounding the accumulated code phase is [p + k code_step]. *)
Lemma code_phase_at_exact (p : R) (k : nat) :
  (forall j, (j < k)%nat -> fl (cp_at p j + code_step) = cp_at p j + code_step) ->
  cp_at p k = p + INR k * code_step.
Proof.
  induction k as [|k IH]; intros H; cbn [Rounded.code_phase_at].
  - cbn. ring.
  - rewrite H by lia. rewrite IH by (intros; apply H; lia). rewrite S_INR. ring.
Qed.

(** *** An epoch *)

(** What a call on a valid epoch has done when it returns. *)
Lemma rounded_epoch_result (p phi : R) (r : correlator_result) :
  valid_epoch p code_step ->
  call p code_step phi carr_step = Some r ->
  num_samples r = Zceil (fl (fl (1023 - p) / code_step)) /\
  (0 <= num_samples r <= INT_MAX)%Z /\
  init_code_phase' r = fl (cp_at p (Z.to_nat (num_samples r)) - 1023) /\
  init_carr_phase' r = fmod (phi + IZR (num_samples r) * carr_step) (2 * PI).
Proof.
  intros Hv Hr. destruct (rounded_quotient_nonneg p Hv) as [Hx Hq].
  pose proof (Zceil_lower _ 0 Hq) as Hq0.
  destruct (rounded_track_correlate_inv p phi r Hr)
    as (z & st & Hs & Hz & Hn & Hst & Hcp & Hph & _).
  apply double_to_int_ceil_Some in Hz as [-> Hrange].
  assert (En : num_samples r = Zceil (fl (fl (1023 - p) / code_step))).
  { rewrite Hn. unfold int_to_u32. apply Z.mod_small.
    unfold INT_MAX in Hrange. lia. }
  destruct (rounded_loop_closed_form p phi _ st Hst) as (Ecp & Eph & _).
  rewrite INR_IZR_INZ, Z2Nat.id in Eph by lia.
  split; [exact En|]. split; [lia|].
  split; [now rewrite Hcp, Ecp | now rewrite Hph, Eph].
Qed.

(** A valid epoch whose number of samples leaves the chip indices inside
    the range of [int] is processed. *)
Lemma rounded_epoch_returns (p phi : R) :
  valid_epoch p code_step ->
  (1024 + Zceil (fl (fl (1023 - p) / code_step)) * Zceil code_step <= INT_MAX)%Z ->
  exists r, call p code_step phi carr_step = Some r.
Proof.
  intros Hv Hmax. destruct (rounded_quotient_nonneg p Hv) as [Hx Hq].
  pose proof (Zceil_lower _ 0 Hq) as Hq0.
  pose proof (Zceil_code_step_pos (proj2 Hv)) as HS.
  assert (Hfit : (Zceil (fl (fl (1023 - p) / code_step)) <= INT_MAX)%Z).
  { unfold INT_MAX in *. nia. }
  destruct (rounded_loop_defined p phi
              (Z.to_nat (Zceil (fl (fl (1023 - p) / code_step)))) Hv) as [st Hst].
  { rewrite Z2Nat.id by lia. exact Hmax. }
  unfold Rounded.track_correlate.
  rewrite (rounded_epoch_samples_valid p Hv Hfit). cbn [bind].
  rewrite Hst. cbn [bind]. eauto.
Qed.


(** Without rounding the embedding is the one in exact arithmetic. *)
Lemma rounded_exact_loop (sin_delta cos_delta : R) (k : nat) (st : correlator_state) :
  Rounded.correlate_loop Rounded.exact samples code code_step carr_step
    sin_delta cos_delta k st
  = correlate_loop samples code code_step carr_step sin_delta cos_delta k st.
Proof.
  induction k as [|k IH]; [reflexivity|].
  cbn [Rounded.correlate_loop correlate_loop]. rewrite IH. reflexivity.
Qed.

Lemma rounded_exact_track_correlate (p phi : R) :
  Rounded.track_correlate Rounded.exact samples code p code_step phi carr_step
  = track_correlate samples code p code_step phi carr_step.
Proof.
  unfold Rounded.track_correlate, track_correlate.
  change (Rounded.epoch_samples Rounded.exact p code_step)
    with (epoch_samples p code_step).
  destruct (epoch_samples p code_step) as [n|]; [|reflexivity].
  cbn [bind]. rewrite rounded_exact_loop. reflexivity.
Qed.

End RoundedCorrelator.


(** *** A signal of ones and no carrier rotation *)

Section RoundedUnitSignal.

Import CMath.

Variable fl : R -> R.
Variables samples code : Z -> Z.
Variable code_step : R.

Local Abbreviation cp_at p := (Rounded.code_phase_at fl p code_step).





End RoundedUnitSignal.

(** *** Chips outside the replica *)

Section RoundedChipIndices.

Import CMath.

Variable fl : R -> R.
Hypothesis Hfl : Rounded.round_to_nearest fl.

(** The epoch that starts a quarter of a chip before the end of the period,
    with a code step of one chip, has one sample. *)
Lemma last_quarter_epoch (samples code : Z -> Z) (phi carr_step : R) :
  exists r,
    Rounded.track_correlate fl samples code 1022.75 1 phi carr_step = Some r /\
    num_samples r = 1%Z /\
    Rounded.early_index fl 1022.75 = Some 1023%Z /\
    Rounded.late_index fl 1022.75 = Some 1024%Z /\
    I_E' r = IZR (code 1023%Z) * (sin phi * IZR (samples 0%Z)) /\
    Q_E' r = IZR (code 1023%Z) * (cos phi * IZR (samples 0%Z)) /\
    I_L' r = IZR (code 1024%Z) * (sin phi * IZR (samples 0%Z)) /\
    Q_L' r = IZR (code 1024%Z) * (cos phi * IZR (samples 0%Z)).
Proof.
  assert (Hv : valid_epoch 1022.75 1) by (unfold valid_epoch; lra).
  assert (Hy : fl (1023 - 1022.75) = 1 / 4).
  { replace (1023 - 1022.75) with (IZR 1 / 4) by lra. apply (fl_quarters fl Hfl). lia. }
  assert (Hq : fl (fl (1023 - 1022.75) / 1) = 1 / 4).
  { rewrite Hy. replace (1 / 4 / 1) with (IZR 1 / 4) by lra.
    apply (fl_quarters fl Hfl). lia. }
  assert (Hn : Zceil (fl (fl (1023 - 1022.75) / 1)) = 1%Z).
  { rewrite Hq. apply Zceil_eq. lra. }
  assert (He : Zceil (fl (1022.75 - 0.5)) = 1023%Z).
  { replace (1022.75 - 0.5) with (IZR 4089 / 4) by lra.
    rewrite (fl_quarters fl Hfl) by lia. apply Zceil_eq. lra. }
  assert (Hl : Zceil (fl (1022.75 + 0.5)) = 1024%Z).
  { replace (1022.75 + 0.5) with (IZR 4093 / 4) by lra.
    rewrite (fl_quarters fl Hfl) by lia. apply Zceil_eq. lra. }
  assert (HE : Rounded.early_index fl 1022.75 = Some 1023%Z).
  { unfold Rounded.early_index. rewrite chip_index_ceil; rewrite He;
      [reflexivity | unfold INT_MIN, INT_MAX; lia]. }
  assert (HL : Rounded.late_index fl 1022.75 = Some 1024%Z).
  { unfold Rounded.late_index. rewrite chip_index_ceil; rewrite Hl;
      [reflexivity | unfold INT_MIN, INT_MAX; lia]. }
  assert (Hc1 : Zceil 1 = 1%Z) by (apply Zceil_eq; lra).
  destruct (rounded_epoch_returns fl samples code 1 carr_step Hfl 1022.75 phi Hv)
    as [r Hr].
  { rewrite Hn, Hc1. unfold INT_MAX. lia. }
  destruct (rounded_epoch_result fl samples code 1 carr_step Hfl 1022.75 phi r Hv Hr)
    as (En & _).
  rewrite Hn in En.
  destruct (rounded_track_correlate_sums fl samples code 1 carr_step 1022.75 phi r Hr)
    as (HIE & HQE & _ & _ & HIL & HQL).
  rewrite En in HIE, HQE, HIL, HQL.
  unfold Rounded.correlation_sum in HIE, HQE, HIL, HQL.
  change (Z.to_nat 1) with 1%nat in HIE, HQE, HIL, HQL.
  cbn [Rsum Rounded.code_phase_at INR Z.of_nat] in HIE, HQE, HIL, HQL.
  rewrite He in HIE, HQE. rewrite Hl in HIL, HQL.
  replace (phi + 0 * carr_step) with phi in HIE, HQE, HIL, HQL by ring.
  exists r. split; [exact Hr|]. split; [exact En|].
  split; [exact HE|]. split; [exact HL|].
  rewrite HIE, HQE, HIL, HQL. repeat split; ring.
Qed.

(** C9.  There is a valid epoch, initial code phase [1022.75] and code step
    [1], whose one sample reads [code] at the early index [1023] and at the
    late index [1024], both outside [[0, 1022]]: the early sums the call
    returns are the chip [code[1023]] times the carrier replica times the
    sample, the late sums the same with [code[1024]], so that two replicas
    with the same chips [0 .. 1022] give different results. *)
Theorem chip_index_out_of_range :
  exists p s : R,
    valid_epoch p s /\
    (forall (samples code : Z -> Z) (phi carr_step : R),
     exists r,
       Rounded.track_correlate fl samples code p s phi carr_step = Some r /\
       num_samples r = 1%Z /\
       Rounded.state_at_sample fl samples code p s phi carr_step 0
       = Some (correlator_init p phi) /\
       Rounded.early_index fl (code_phase (correlator_init p phi)) = Some 1023%Z /\
       Rounded.late_index fl (code_phase (correlator_init p phi)) = Some 1024%Z /\
       ~ valid_chip_index 1023 /\ ~ valid_chip_index 1024 /\
       I_E' r = IZR (code 1023%Z) * (sin phi * IZR (samples 0%Z)) /\
       Q_E' r = IZR (code 1023%Z) * (cos phi * IZR (samples 0%Z)) /\
       I_L' r = IZR (code 1024%Z) * (sin phi * IZR (samples 0%Z)) /\
       Q_L' r = IZR (code 1024%Z) * (cos phi * IZR (samples 0%Z))) /\
    (exists (samples code code' : Z -> Z) (phi carr_step : R)
            (r r' : correlator_result),
       (forall z, valid_chip_index z -> code z = code' z) /\
       Rounded.track_correlate fl samples code p s phi carr_step = Some r /\
       Rounded.track_correlate fl samples code' p s phi carr_step = Some r' /\
       Q_E' r <> Q_E' r' /\ Q_L' r <> Q_L' r').
Proof.
  exists 1022.75, 1.
  split; [unfold valid_epoch; lra|]. split.
  - intros samples code phi carr_step.
    destruct (last_quarter_epoch samples code phi carr_step)
      as (r & Hr & Hn & HE & HL & Hsums).
    exists r. split; [exact Hr|]. split; [exact Hn|].
    split; [reflexivity|]. cbn [correlator_init code_phase].
    split; [exact HE|]. split; [exact HL|].
    split; [unfold valid_chip_index; lia|].
    split; [unfold valid_chip_index; lia|]. exact Hsums.
  - destruct (last_quarter_epoch (fun _ => 1%Z) (fun _ => 1%Z) 0 0)
      as (r & Hr & _ & _ & _ & _ & HQE & _ & HQL).
    destruct (last_quarter_epoch (fun _ => 1%Z)
                (fun z => if (z <=? 1022)%Z then 1%Z else 0%Z) 0 0)
      as (r' & Hr' & _ & _ & _ & _ & HQE' & _ & HQL').
    exists (fun _ => 1%Z), (fun _ => 1%Z),
      (fun z => if (z <=? 1022)%Z then 1%Z else 0%Z), 0, 0, r, r'.
    split.
    { intros z Hz. unfold valid_chip_index in Hz.
      destruct (Z.leb_spec z 1022); [reflexivity | lia]. }
    split; [exact Hr|]. split; [exact Hr'|].
    rewrite HQE, HQL, HQE', HQL', cos_0. cbn [Z.leb Z.compare Pos.compare
      Pos.compare_cont]. split; lra.
Qed.

End RoundedChipIndices.

(** *** Particular epochs *)

Section Epochs.

Import CMath.

Local Abbreviation ones := (fun _ : Z => 1%Z).

Lemma Zceil_1023 : Zceil ((1023 - 0) / 1) = 1023%Z.
Proof. apply Zceil_eq. lra. Qed.

Lemma round_to_nearest_exact : Rounded.round_to_nearest Rounded.exact.
Proof. split; [intros x y H; exact H | intros z _; reflexivity]. Qed.

Lemma sample_epoch_valid : valid_epoch 0 1.
Proof. unfold valid_epoch. lra. Qed.

Lemma sample_epoch_fits : (Zceil ((1023 - 0) / 1) <= INT_MAX)%Z.
Proof. rewrite Zceil_1023. unfold INT_MAX. lia. Qed.

(** The epoch from the code phase 0 with the code step 1 returns. *)
Lemma sample_epoch_returns (samples code : Z -> Z) (phi carr_step : R) :
  exists r, Rounded.track_correlate Rounded.exact samples code 0 1 phi carr_step = Some r.
Proof.
  apply (rounded_epoch_returns Rounded.exact samples code 1 carr_step
           round_to_nearest_exact 0 phi sample_epoch_valid).
  unfold Rounded.exact. rewrite Zceil_1023, (Zceil_eq 1 1) by lra.
  unfold INT_MAX. lia.
Qed.



Lemma chip_index_out_of_range_witness :
  Rounded.round_to_nearest Rounded.exact /\
  exists p s : R,
    valid_epoch p s /\
    (forall (samples code : Z -> Z) (phi carr_step : R),
     exists r,
       Rounded.track_correlate Rounded.exact samples code p s phi carr_step = Some r /\
       num_samples r = 1%Z /\
       Rounded.state_at_sample Rounded.exact samples code p s phi carr_step 0
       = Some (correlator_init p phi) /\
       Rounded.early_index Rounded.exact (code_phase (correlator_init p phi))
       = Some 1023%Z /\
       Rounded.late_index Rounded.exact (code_phase (correlator_init p phi))
       = Some 1024%Z /\
       ~ valid_chip_index 1023 /\ ~ valid_chip_index 1024 /\
       I_E' r = IZR (code 1023%Z) * (sin phi * IZR (samples 0%Z)) /\
       Q_E' r = IZR (code 1023%Z) * (cos phi * IZR (samples 0%Z)) /\
       I_L' r = IZR (code 1024%Z) * (sin phi * IZR (samples 0%Z)) /\
       Q_L' r = IZR (code 1024%Z) * (cos phi * IZR (samples 0%Z))) /\
    (exists (samples code code' : Z -> Z) (phi carr_step : R)
            (r r' : correlator_result),
       (forall z, valid_chip_index z -> code z = code' z) /\
       Rounded.track_correlate Rounded.exact samples code p s phi carr_step = Some r /\
       Rounded.track_correlate Rounded.exact samples code' p s phi carr_step = Some r' /\
       Q_E' r <> Q_E' r' /\ Q_L' r <> Q_L' r').
Proof.
  split; [exact round_to_nearest_exact|].
  exact (chip_index_out_of_range Rounded.exact round_to_nearest_exact).
Defined.







End Epochs.

Section EpochsBinary64.

Import Floats.



End EpochsBinary64.

(** * Further properties *)

(** ** Loop filter design *)

Section LoopFilterFurther.

(** X1.  The gains depend on the bandwidth and on the sampling frequency through
    their ratio only. *)
Theorem calc_loop_gains_scale (bw zeta k sample_freq c : R) :
  c <> 0 -> sample_freq <> 0 ->
  calc_loop_gains (c * bw) zeta k (c * sample_freq) =
  calc_loop_gains bw zeta k sample_freq.
Proof.
  intros Hc Hf. unfold calc_loop_gains.
  assert (Hz : 4 * zeta * zeta + 1 <> 0) by nra.
  set (w := bw * 8 * zeta / (4 * zeta * zeta + 1)).
  set (t := 1 / sample_freq).
  assert (Hw : c * bw * 8 * zeta / (4 * zeta * zeta + 1) = c * w)
    by (unfold w, Rdiv; ring).
  assert (Ht : 1 / (c * sample_freq) = t / c) by (unfold t; field; auto).
  rewrite Hw, Ht.
  assert (Hwt : c * w * (t / c) = w * t) by (field; exact Hc).
  replace (8 * zeta * (c * w) * (t / c)) with (8 * zeta * (c * w * (t / c))) by ring.
  replace (4 * zeta * (c * w) * (t / c)) with (4 * zeta * (c * w * (t / c))) by ring.
  replace (c * w * (c * w) * (t / c) * (t / c))
    with (c * w * (t / c) * (c * w * (t / c))) by ring.
  replace (4 * (c * w) * (c * w) * (t / c) * (t / c))
    with (4 * (c * w * (t / c)) * (c * w * (t / c))) by ring.
  rewrite Hwt. f_equal; f_equal; ring.
Qed.

Lemma calc_loop_gains_scale_witness :
  calc_loop_gains (1000 * 1) 0.7 1 (1000 * 1) = calc_loop_gains 1 0.7 1 1.
Proof. apply (calc_loop_gains_scale 1 0.7 1 1 1000); lra. Defined.

(** X2.  The products of the loop gain with the two filter gains are bounded. *)
Theorem calc_loop_gains_bounded (bw zeta k sample_freq : R) :
  0 < zeta -> k <> 0 -> 0 < bw -> 0 < sample_freq ->
  0 < k * pgain (calc_loop_gains bw zeta k sample_freq) < 2 /\
  0 < k * igain (calc_loop_gains bw zeta k sample_freq) < 4.
Proof.
  intros Hz Hk HB Hf. unfold calc_loop_gains; cbn [pgain igain].
  rewrite omega_n_code_spec. fold (LoopFilterSpec.T sample_freq).
  pose proof (omega_n_pos bw zeta Hz HB) as Hw.
  pose proof (T_pos sample_freq Hf) as Ht.
  set (w := LoopFilterSpec.omega_n bw zeta) in *.
  set (t := LoopFilterSpec.T sample_freq) in *. clearbody w t.
  assert (Hzwt : 0 < zeta * w * t) by (repeat apply Rmult_lt_0_compat; lra).
  assert (Hwt : 0 < w * w * t * t) by (repeat apply Rmult_lt_0_compat; lra).
  set (b := 4 + 4 * zeta * w * t + w * w * t * t).
  assert (Hb : 0 < b) by (unfold b; lra).
  assert (Hi : 0 < / b) by now apply Rinv_0_lt_compat.
  assert (Hbi : b * / b = 1) by (apply Rinv_r; lra).
  replace (k * (8 * zeta * w * t / (k * b))) with (8 * (zeta * w * t) * / b)
    by (field; lra).
  replace (k * (4 * w * w * t * t / (k * b))) with (4 * (w * w * t * t) * / b)
    by (field; lra).
  assert (Hp : 8 * (zeta * w * t) < 2 * b) by (unfold b; lra).
  assert (Hq : 4 * (w * w * t * t) < 4 * b) by (unfold b; lra).
  repeat split.
  - apply Rmult_lt_0_compat; lra.
  - apply (Rmult_lt_compat_r (/ b)) in Hp; [|exact Hi].
    replace (2 * b * / b) with 2 in Hp by (field; lra). exact Hp.
  - apply Rmult_lt_0_compat; lra.
  - apply (Rmult_lt_compat_r (/ b)) in Hq; [|exact Hi].
    replace (4 * b * / b) with 4 in Hq by (field; lra). exact Hq.
Qed.

Lemma calc_loop_gains_bounded_witness :
  0 < 1 * pgain (calc_loop_gains 10 0.7 1 1000) < 2 /\
  0 < 1 * igain (calc_loop_gains 10 0.7 1 1000) < 4.
Proof. apply (calc_loop_gains_bounded 10 0.7 1 1000); lra. Defined.

End LoopFilterFurther.

(** ** Discriminators *)

Section DiscriminatorsFurther.

Lemma Rdiv_neq_0 (x y : R) : x <> 0 -> y <> 0 -> x / y <> 0.
Proof.
  intros Hx Hy. unfold Rdiv.
  apply Rmult_integral_contrapositive_currified; [exact Hx|].
  now apply Rinv_neq_0_compat.
Qed.

Lemma atan_eq_0 (x : R) : atan x = 0 -> x = 0.
Proof.
  intros H. rewrite <- (tan_atan x), H. apply tan_0.
Qed.

Lemma ieee_div_neg_l (a b : IEEE.double) :
  IEEE.div (IEEE.neg a) b = IEEE.neg (IEEE.div a b).
Proof.
  destruct a as [x| |s|], b as [y| |t|];
    unfold IEEE.neg, IEEE.div, IEEE.is_zero, IEEE.sign, IEEE.zero, IEEE.to_R;
    ieee_cases; cbn; ieee_cases; try lra; try reflexivity;
    try (destruct s; reflexivity);
    try (destruct t; cbn; ieee_cases; try lra; reflexivity);
    try match goal with
        | H : ?a / ?b = 0 |- _ => exfalso; apply (Rdiv_neq_0 a b); assumption
        end.
  all: f_equal; field; assumption.
Qed.

Lemma ieee_atan_neg (d : IEEE.double) :
  IEEE.atan (IEEE.neg d) = IEEE.neg (IEEE.atan d).
Proof.
  pose proof PI_RGT_0 as Hpi.
  destruct d as [x| |s|]; unfold IEEE.neg, IEEE.atan; cbn.
  - destruct (Req_dec_T x 0) as [->|Hx].
    + rewrite atan_0. destruct (Req_dec_T 0 0); [reflexivity|contradiction].
    + destruct (Req_dec_T (atan x) 0) as [E|_].
      * exfalso. now apply Hx, atan_eq_0.
      * now rewrite atan_opp.
  - now rewrite atan_0.
  - destruct s; ieee_cases; try lra; cbn; f_equal; lra.
  - reflexivity.
Qed.

(** X3.  The Costas discriminator is odd in the in-phase correlation, for every
    input: an in-phase correlation of the opposite sign gives the opposite
    phase error. *)
Theorem costas_discriminator_odd (I Q : IEEE.double) :
  costas_discriminator (IEEE.neg I) Q = IEEE.neg (costas_discriminator I Q).
Proof.
  unfold costas_discriminator.
  now rewrite ieee_div_neg_l, ieee_atan_neg, ieee_div_neg_l.
Qed.

Lemma quarter_cycle_bound (x : R) :
  - (PI / 2) <= x <= PI / 2 -> - (1 / 4) <= x / (2 * PI) <= 1 / 4.
Proof.
  intros [Hlo Hhi]. pose proof PI_RGT_0 as Hpi.
  assert (Hi : 0 < / (2 * PI)) by (apply Rinv_0_lt_compat; lra).
  assert (E : PI * / (2 * PI) = 1 / 2) by (field; lra).
  unfold Rdiv. set (i := / (2 * PI)) in *. clearbody i. split; nra.
Qed.

(** What the discriminator makes of the quotient [I/Q]. *)
Lemma costas_of_quotient (d : IEEE.double) :
  match d with
  | IEEE.NaN => IEEE.div (IEEE.atan d) (IEEE.Finite (2 * PI)) = IEEE.NaN
  | _ => exists v,
           IEEE.value (IEEE.div (IEEE.atan d) (IEEE.Finite (2 * PI))) = Some v /\
           - (1 / 4) <= v <= 1 / 4
  end.
Proof.
  pose proof PI_RGT_0 as Hpi.
  destruct d as [q| |s|]; [| | |reflexivity].
  - pose proof (atan_bound q) as [Hlo Hhi].
    cbn [IEEE.atan]. unfold IEEE.div, IEEE.is_zero, IEEE.sign, IEEE.zero, IEEE.to_R.
    destruct (Req_dec_T (2 * PI) 0) as [|_]; [lra|].
    destruct (Req_dec_T (atan q) 0) as [E|_].
    + exists 0. split; [destruct (xorb _ _); reflexivity | lra].
    + exists (atan q / (2 * PI)). split; [reflexivity|].
      apply quarter_cycle_bound. lra.
  - exists 0. cbn [IEEE.atan].
    unfold IEEE.div, IEEE.is_zero, IEEE.sign, IEEE.zero.
    destruct (Req_dec_T (2 * PI) 0) as [|_]; [lra|].
    destruct (Rlt_dec (2 * PI) 0) as [|_]; [lra|]. cbn. split; [reflexivity | lra].
  - cbn [IEEE.atan]. unfold IEEE.div, IEEE.is_zero, IEEE.sign, IEEE.zero, IEEE.to_R.
    destruct (Req_dec_T (2 * PI) 0) as [|_]; [lra|].
    destruct s.
    + destruct (Req_dec_T (- (PI / 2)) 0) as [|_]; [lra|].
      exists (- (PI / 2) / (2 * PI)). split; [reflexivity|].
      apply quarter_cycle_bound. lra.
    + destruct (Req_dec_T (PI / 2) 0) as [|_]; [lra|].
      exists (PI / 2 / (2 * PI)). split; [reflexivity|].
      apply quarter_cycle_bound. lra.
Qed.

Lemma ieee_div_nan (a b : IEEE.double) :
  IEEE.div a b = IEEE.NaN <->
  a = IEEE.NaN \/ b = IEEE.NaN \/
  (IEEE.is_zero a = true /\ IEEE.is_zero b = true) \/
  (exists s t, a = IEEE.Infinity s /\ b = IEEE.Infinity t).
Proof.
  destruct a as [x| |s|], b as [y| |t|];
    unfold IEEE.div, IEEE.is_zero, IEEE.zero;
    ieee_cases;
    (split;
     [ intros H; try discriminate H; auto; try (now repeat right; eauto);
       try (destruct (xorb _ _); discriminate H)
     | intros [H|[H|[[H1 H2]|(s' & t' & H1 & H2)]]];
       try discriminate; try reflexivity ]).
Qed.

(** X4.  The Costas discriminator yields NaN exactly when the quotient [I/Q] is
    not a number: an operand is NaN, both are zero or both are infinite.
    Every other output is a finite phase error of at most a quarter cycle. *)
Theorem costas_discriminator_range (I Q : IEEE.double) :
  (costas_discriminator I Q = IEEE.NaN <->
   I = IEEE.NaN \/ Q = IEEE.NaN \/
   (IEEE.is_zero I = true /\ IEEE.is_zero Q = true) \/
   (exists s t, I = IEEE.Infinity s /\ Q = IEEE.Infinity t)) /\
  (costas_discriminator I Q = IEEE.NaN \/
   exists v, IEEE.value (costas_discriminator I Q) = Some v /\
             - (1 / 4) <= v <= 1 / 4).
Proof.
  rewrite <- ieee_div_nan. unfold costas_discriminator.
  pose proof (costas_of_quotient (IEEE.div I Q)) as H.
  destruct (IEEE.div I Q) as [q| |s|].
  - destruct H as (v & Hv & Hb). split; [|right; eauto].
    split; [intros E; rewrite E in Hv; discriminate | discriminate].
  - destruct H as (v & Hv & Hb). split; [|right; eauto].
    split; [intros E; rewrite E in Hv; discriminate | discriminate].
  - destruct H as (v & Hv & Hb). split; [|right; eauto].
    split; [intros E; rewrite E in Hv; discriminate | discriminate].
  - split; [split; auto | left; exact H].
Qed.

(** X5.  The discriminator of the delay-locked loop lies between [-1] and [1]: it
    is [1] when the late correlation vanishes and [-1] when the early one
    does. *)
Theorem dll_discriminator_range (cs : nat -> Corr.correlation_t) :
  correlation_magnitude (cs 0%nat) + correlation_magnitude (cs 2%nat) <> 0 ->
  -1 <= dll_discriminator cs <= 1 /\
  (correlation_magnitude (cs 2%nat) = 0 -> dll_discriminator cs = 1) /\
  (correlation_magnitude (cs 0%nat) = 0 -> dll_discriminator cs = -1).
Proof.
  intros Hsum.
  unfold dll_discriminator. rewrite !correlation_magnitude_code.
  pose proof (correlation_magnitude_nonneg (cs 0%nat)) as HE.
  pose proof (correlation_magnitude_nonneg (cs 2%nat)) as HL.
  set (E := correlation_magnitude (cs 0%nat)) in *.
  set (L := correlation_magnitude (cs 2%nat)) in *.
  clearbody E L.
  assert (Hpos : 0 < E + L) by lra.
  assert (Hi : 0 < / (E + L)) by now apply Rinv_0_lt_compat.
  assert (Hone : (E + L) * / (E + L) = 1) by (apply Rinv_r; lra).
  unfold Rdiv. set (i := / (E + L)) in *. clearbody i.
  repeat split.
  - nra.
  - nra.
  - intros ->. nra.
  - intros ->. nra.
Qed.

Lemma dll_discriminator_range_witness :
  -1 <= dll_discriminator Sample.correlations <= 1 /\
  (correlation_magnitude (Sample.correlations 2) = 0 ->
   dll_discriminator Sample.correlations = 1) /\
  (correlation_magnitude (Sample.correlations 0) = 0 ->
   dll_discriminator Sample.correlations = -1).
Proof.
  apply (dll_discriminator_range Sample.correlations).
  destruct sample_correlation_magnitudes as [-> ->]. lra.
Defined.

Lemma correlation_magnitude_scale (c : R) (x : Corr.correlation_t) :
  correlation_magnitude (scale_correlation c x) = Rabs c * correlation_magnitude x.
Proof.
  unfold correlation_magnitude, scale_correlation; cbn [Corr.I Corr.Q].
  replace ((c * Corr.I x) ^ 2 + (c * Corr.Q x) ^ 2)
    with (Rsqr c * (Corr.I x ^ 2 + Corr.Q x ^ 2)) by (unfold Rsqr; ring).
  rewrite sqrt_mult; [|apply Rle_0_sqr|nra].
  now rewrite sqrt_Rsqr_abs.
Qed.

(** X6.  The discriminator of the delay-locked loop does not depend on the
    amplitude of the signal: correlations scaled by a common factor give the
    same value. *)
Theorem dll_discriminator_amplitude (cs : nat -> Corr.correlation_t) (c : R) :
  c <> 0 ->
  correlation_magnitude (cs 0%nat) + correlation_magnitude (cs 2%nat) <> 0 ->
  dll_discriminator (fun i => scale_correlation c (cs i)) = dll_discriminator cs.
Proof.
  intros Hc Hsum. unfold dll_discriminator.
  rewrite !correlation_magnitude_code, !correlation_magnitude_scale.
  pose proof (Rabs_pos_lt c Hc) as Ha.
  field. split; [exact Hsum|].
  rewrite <- Rmult_plus_distr_l.
  apply Rmult_integral_contrapositive_currified; [lra | exact Hsum].
Qed.

Lemma dll_discriminator_amplitude_witness :
  dll_discriminator (fun i => scale_correlation (-2) (Sample.correlations i)) =
  dll_discriminator Sample.correlations.
Proof.
  apply (dll_discriminator_amplitude Sample.correlations (-2)); [lra|].
  destruct sample_correlation_magnitudes as [-> ->]. lra.
Defined.

(** X7.  Exchanging the early and the late correlation changes the sign of the
    discriminator. *)
Theorem dll_discriminator_swap (cs : nat -> Corr.correlation_t) :
  correlation_magnitude (cs 0%nat) + correlation_magnitude (cs 2%nat) <> 0 ->
  dll_discriminator (swap_early_late cs) = - dll_discriminator cs.
Proof.
  intros Hsum. unfold dll_discriminator, swap_early_late. cbn [Nat.sub].
  rewrite !correlation_magnitude_code.
  field. exact Hsum.
Qed.

Lemma dll_discriminator_swap_witness :
  dll_discriminator (swap_early_late Sample.correlations) =
  - dll_discriminator Sample.correlations.
Proof.
  apply (dll_discriminator_swap Sample.correlations).
  destruct sample_correlation_magnitudes as [-> ->]. lra.
Defined.

End DiscriminatorsFurther.

(** ** Navigation measurements *)

Section NavigationFurther.

Variables NAV_C GPS_L1_HZ NOMINAL_RANGE : R.
Variable ephemeris_t : Type.
Variable calc_sat_pos : ephemeris_t -> R -> sat_state.

Variable meas : nat -> channel_measurement_t.
Variable nav_meas : nat -> nav_ptr.
Variable nav_time : R.
Variable ephemerides : nat -> ephemeris_t.
Variable h0 : nav_heap.

Local Abbreviation tot := (fun j => NavSpec.TOT_i nav_time (meas j)).
Local Abbreviation sat j := (calc_sat_pos (ephemerides j) (NavSpec.TOT_i nav_time (meas j))).
Local Abbreviation st1 n := (nav_first_pass NAV_C GPS_L1_HZ n meas nav_meas nav_time h0).
Local Abbreviation mean n :=
  (nav_mean_TOT NAV_C GPS_L1_HZ n meas nav_meas nav_time h0).
Local Abbreviation effect1 := (first_loop_effect NAV_C GPS_L1_HZ meas nav_time).
Local Abbreviation effect2 :=
  (second_loop_effect NAV_C NOMINAL_RANGE ephemeris_t calc_sat_pos ephemerides).
Local Abbreviation result n :=
  (calc_navigation_measurement_ NAV_C GPS_L1_HZ NOMINAL_RANGE ephemeris_t calc_sat_pos
     n meas nav_meas nav_time ephemerides h0).

(** X9.  [calc_navigation_measurement_] writes through the pointers it is given
    and nowhere else: a measurement none of them points to is left as it
    was.  With no channel nothing is written at all. *)
Theorem calc_navigation_measurement_frame (n : nat) (q : nav_ptr) :
  (forall j, (j < n)%nat -> nav_meas j <> q) ->
  result n q = h0 q.
Proof.
  intros Hq. unfold calc_navigation_measurement_.
  rewrite (for_loop_untouched (fun h => h) _ nav_meas
             (effect2 (TOTs (st1 n)) (mean n))
             (second_loop_body_heap _ _ _ _ _ _ _ _)) by exact Hq.
  unfold nav_first_pass.
  now rewrite (for_loop_untouched heap _ nav_meas effect1
                 (first_loop_body_heap _ _ _ _ _)).
Qed.

(** X10.  The difference of the pseudoranges of two channels is the difference of
    their times of transmission and of their satellite clock errors times
    the speed of light: the mean time of transmission and the nominal range
    cancel. *)
Theorem pseudorange_difference (n i j : nat) :
  distinct_upto n nav_meas -> (i < n)%nat -> (j < n)%nat ->
  pseudorange (result n (nav_meas i)) - pseudorange (result n (nav_meas j)) =
  (NavSpec.TOT_i nav_time (meas j) - NavSpec.TOT_i nav_time (meas i)) * NAV_C
  + (clock_err (sat i) - clock_err (sat j)) * NAV_C.
Proof.
  intros Hd Hi Hj.
  rewrite !result_at by assumption.
  unfold second_loop_effect; cbn [pseudorange].
  rewrite !first_pass_TOTs by assumption. ring.
Qed.

(** X11.  When two channels are given the same measurement to fill, it ends with
    the time of transmission, the pseudorange and the satellite state of the
    second channel, and with a pseudorange rate from which the clock drifts
    of both satellites have been subtracted. *)
Theorem calc_navigation_measurement_aliased :
  nav_meas 0%nat = nav_meas 1%nat ->
  TOT (result 2 (nav_meas 1%nat)) = NavSpec.TOT_i nav_time (meas 1%nat) /\
  pseudorange (result 2 (nav_meas 1%nat)) =
    (NavSpec.meanTOT 2 tot - NavSpec.TOT_i nav_time (meas 1%nat)) * NAV_C
    + NOMINAL_RANGE + clock_err (sat 1%nat) * NAV_C /\
  pseudorange_rate (result 2 (nav_meas 1%nat)) =
    NAV_C * - carrier_freq (meas 1%nat) / GPS_L1_HZ
    - clock_rate_err (sat 0%nat) * NAV_C - clock_rate_err (sat 1%nat) * NAV_C /\
  sat_pos (result 2 (nav_meas 1%nat)) = pos (sat 1%nat) /\
  sat_vel (result 2 (nav_meas 1%nat)) = vel (sat 1%nat).
Proof.
  intros E.
  assert (Hres : result 2 (nav_meas 1%nat) =
                 effect2 (TOTs (st1 2)) (mean 2) 1%nat
                   (effect2 (TOTs (st1 2)) (mean 2) 0%nat
                      (effect1 1%nat (effect1 0%nat (h0 (nav_meas 1%nat)))))).
  { unfold calc_navigation_measurement_. fold (mean 2). cbn [for_loop].
    rewrite second_loop_body_heap, Nat.eqb_refl.
    rewrite second_loop_body_heap, <- E, Nat.eqb_refl.
    unfold nav_first_pass. cbn [for_loop].
    rewrite first_loop_body_heap, E, Nat.eqb_refl.
    rewrite first_loop_body_heap, <- E, Nat.eqb_refl.
    now rewrite E. }
  rewrite Hres, nav_mean_TOT_spec.
  unfold second_loop_effect, first_loop_effect;
    cbn [TOT pseudorange pseudorange_rate sat_pos sat_vel
         set_TOT set_pseudorange_rate].
  rewrite !first_pass_TOTs by lia.
  repeat split; reflexivity.
Qed.

End NavigationFurther.

(** *** Sample runs *)

Section NavigationFurtherSample.

Local Abbreviation result n ptrs :=
  (calc_navigation_measurement_ Sample.NAV_C Sample.GPS_L1_HZ Sample.NOMINAL_RANGE
     unit Sample.calc_sat_pos n Sample.meas ptrs 0 Sample.ephemerides Sample.heap).
Local Abbreviation sat j :=
  (Sample.calc_sat_pos (Sample.ephemerides j) (NavSpec.TOT_i 0 (Sample.meas j))).

Lemma calc_navigation_measurement_frame_witness :
  result 2 Sample.nav_meas 5%nat = Sample.heap 5%nat.
Proof.
  apply (calc_navigation_measurement_frame Sample.NAV_C Sample.GPS_L1_HZ
           Sample.NOMINAL_RANGE unit Sample.calc_sat_pos Sample.meas Sample.nav_meas 0
           Sample.ephemerides Sample.heap 2 5%nat).
  intros j Hj. unfold Sample.nav_meas. lia.
Defined.

Lemma pseudorange_difference_witness :
  pseudorange (result 2 Sample.nav_meas (Sample.nav_meas 0))
  - pseudorange (result 2 Sample.nav_meas (Sample.nav_meas 1)) =
  (NavSpec.TOT_i 0 (Sample.meas 1) - NavSpec.TOT_i 0 (Sample.meas 0)) * Sample.NAV_C
  + (clock_err (sat 0%nat) - clock_err (sat 1%nat)) * Sample.NAV_C.
Proof.
  apply (pseudorange_difference Sample.NAV_C Sample.GPS_L1_HZ
           Sample.NOMINAL_RANGE unit Sample.calc_sat_pos Sample.meas Sample.nav_meas 0
           Sample.ephemerides Sample.heap 2 0 1).
  - apply sample_pointers_distinct.
  - lia.
  - lia.
Defined.

Lemma calc_navigation_measurement_aliased_witness :
  pseudorange_rate (result 2 (fun _ => 0%nat) 0%nat) =
  Sample.NAV_C * - carrier_freq (Sample.meas 1) / Sample.GPS_L1_HZ
  - clock_rate_err (sat 0%nat) * Sample.NAV_C
  - clock_rate_err (sat 1%nat) * Sample.NAV_C.
Proof.
  apply (calc_navigation_measurement_aliased Sample.NAV_C Sample.GPS_L1_HZ
           Sample.NOMINAL_RANGE unit Sample.calc_sat_pos Sample.meas (fun _ => 0%nat) 0
           Sample.ephemerides Sample.heap eq_refl).
Defined.

Lemma calc_navigation_measurement_array_witness :
  let tot := fun j => NavSpec.TOT_i 0 (Sample.meas j) in
  let s := Sample.calc_sat_pos (Sample.ephemerides 1) (tot 1%nat) in
  let out := calc_navigation_measurement Sample.NAV_C Sample.GPS_L1_HZ
               Sample.NOMINAL_RANGE unit Sample.calc_sat_pos 2 Sample.meas Sample.heap 0
               Sample.ephemerides 1 in
  TOT out = tot 1%nat /\
  pseudorange out =
    (NavSpec.meanTOT 2 tot - tot 1%nat) * Sample.NAV_C + Sample.NOMINAL_RANGE
    + clock_err s * Sample.NAV_C /\
  pseudorange_rate out =
    Sample.NAV_C * - carrier_freq (Sample.meas 1) / Sample.GPS_L1_HZ
    - clock_rate_err s * Sample.NAV_C /\
  sat_pos out = pos s /\ sat_vel out = vel s.
Proof.
  apply (calc_navigation_measurement_array Sample.NAV_C Sample.GPS_L1_HZ
           Sample.NOMINAL_RANGE unit Sample.calc_sat_pos 2 Sample.meas Sample.heap 0
           Sample.ephemerides 1).
  lia.
Defined.

End NavigationFurtherSample.

(** ** Tropospheric correction *)

Section TropoProperties.

Variable wgsecef2azel : vec3 -> vec3 -> R * R.
Variable tropo_correction : R -> R.

Variable nav_meas : nat -> nav_ptr.
Variable ref_ecef : vec3.

Local Abbreviation tropo := (tropo_effect wgsecef2azel tropo_correction ref_ecef).
Local Abbreviation apply_tropo n :=
  (apply_tropo_correction wgsecef2azel tropo_correction n nav_meas ref_ecef).

Lemma tropo_loop_body_heap (i : nat) (h : nav_heap) (q : nav_ptr) :
  tropo_loop_body wgsecef2azel tropo_correction nav_meas ref_ecef i h q =
  if Nat.eqb q (nav_meas i) then tropo (h (nav_meas i)) else h q.
Proof.
  unfold tropo_loop_body, tropo_effect.
  destruct (wgsecef2azel (sat_pos (h (nav_meas i))) ref_ecef) as [az el]. cbn [snd].
  unfold modify. reflexivity.
Qed.

(** X12.  [apply_tropo_correction] subtracts from the pseudorange of every channel
    the delay at the elevation of that channel's satellite seen from the
    reference position, leaves the other fields of the measurement alone,
    and touches no measurement that is not one of the [n] channels'. *)
Theorem apply_tropo_correction_spec (n : nat) (h : nav_heap) :
  distinct_upto n nav_meas ->
  (forall i, (i < n)%nat ->
     let m := h (nav_meas i) in
     let m' := apply_tropo n h (nav_meas i) in
     pseudorange m' =
       pseudorange m - tropo_correction (snd (wgsecef2azel (sat_pos m) ref_ecef)) /\
     pseudorange_rate m' = pseudorange_rate m /\ TOT m' = TOT m /\
     sat_pos m' = sat_pos m /\ sat_vel m' = sat_vel m) /\
  (forall q, (forall j, (j < n)%nat -> nav_meas j <> q) -> apply_tropo n h q = h q).
Proof.
  intros Hd. split.
  - intros i Hi m m'. subst m m'. unfold apply_tropo_correction.
    rewrite (for_loop_touched (fun h => h) _ nav_meas (fun _ => tropo)
               tropo_loop_body_heap) by assumption.
    unfold tropo_effect. cbn. repeat split; reflexivity.
  - intros q Hq. unfold apply_tropo_correction.
    now rewrite (for_loop_untouched (fun h => h) _ nav_meas (fun _ => tropo)
                   tropo_loop_body_heap).
Qed.

End TropoProperties.

Section TropoComposition.

Variables NAV_C GPS_L1_HZ NOMINAL_RANGE : R.
Variable ephemeris_t : Type.
Variable calc_sat_pos : ephemeris_t -> R -> sat_state.
Variable wgsecef2azel : vec3 -> vec3 -> R * R.
Variable tropo_correction : R -> R.

(** X13.  Measuring and then correcting for the troposphere: the pseudorange of a
    channel is the clock-corrected one less the delay at the elevation of
    the position the propagator gave for its satellite; the time of
    transmission and the pseudorange rate are those of the measurement. *)
Theorem measure_then_tropo
    (n : nat) (meas : nat -> channel_measurement_t) (nav_meas : nat -> nav_ptr)
    (nav_time : R) (ephemerides : nat -> ephemeris_t) (ref_ecef : vec3)
    (h : nav_heap) (i : nat) :
  distinct_upto n nav_meas -> (i < n)%nat ->
  let tot := fun j => NavSpec.TOT_i nav_time (meas j) in
  let s := calc_sat_pos (ephemerides i) (tot i) in
  let out :=
    apply_tropo_correction wgsecef2azel tropo_correction n nav_meas ref_ecef
      (calc_navigation_measurement_ NAV_C GPS_L1_HZ NOMINAL_RANGE ephemeris_t
         calc_sat_pos n meas nav_meas nav_time ephemerides h)
      (nav_meas i) in
  pseudorange out =
    (NavSpec.meanTOT n tot - tot i) * NAV_C + NOMINAL_RANGE + clock_err s * NAV_C
    - tropo_correction (snd (wgsecef2azel (pos s) ref_ecef)) /\
  pseudorange_rate out =
    NAV_C * - carrier_freq (meas i) / GPS_L1_HZ - clock_rate_err s * NAV_C /\
  TOT out = tot i.
Proof.
  intros Hd Hi tot s out. subst out.
  unfold apply_tropo_correction.
  rewrite (for_loop_touched (fun h => h) _ nav_meas
             (fun _ => tropo_effect wgsecef2azel tropo_correction ref_ecef)
             (tropo_loop_body_heap wgsecef2azel tropo_correction nav_meas ref_ecef))
    by assumption.
  rewrite result_at by assumption.
  unfold tropo_effect, second_loop_effect, first_loop_effect;
    cbn [TOT pseudorange pseudorange_rate sat_pos sat_vel
         set_TOT set_pseudorange_rate set_pseudorange].
  rewrite nav_mean_TOT_spec, first_pass_TOTs by assumption.
  subst tot s. repeat split; reflexivity.
Qed.

End TropoComposition.

Section TropoSample.

Lemma apply_tropo_correction_spec_witness :
  (forall i, (i < 2)%nat ->
     let m := Sample.heap (Sample.nav_meas i) in
     let m' := apply_tropo_correction SampleTropo.wgsecef2azel
                 SampleTropo.tropo_correction 2 Sample.nav_meas SampleTropo.ref_ecef
                 Sample.heap (Sample.nav_meas i) in
     pseudorange m' =
       pseudorange m
       - SampleTropo.tropo_correction
           (snd (SampleTropo.wgsecef2azel (sat_pos m) SampleTropo.ref_ecef)) /\
     pseudorange_rate m' = pseudorange_rate m /\ TOT m' = TOT m /\
     sat_pos m' = sat_pos m /\ sat_vel m' = sat_vel m) /\
  (forall q, (forall j, (j < 2)%nat -> Sample.nav_meas j <> q) ->
     apply_tropo_correction SampleTropo.wgsecef2azel SampleTropo.tropo_correction 2
       Sample.nav_meas SampleTropo.ref_ecef Sample.heap q = Sample.heap q).
Proof.
  apply (apply_tropo_correction_spec SampleTropo.wgsecef2azel
           SampleTropo.tropo_correction Sample.nav_meas SampleTropo.ref_ecef 2
           Sample.heap).
  apply sample_pointers_distinct.
Defined.

Lemma measure_then_tropo_witness :
  let tot := fun j => NavSpec.TOT_i 0 (Sample.meas j) in
  let s := Sample.calc_sat_pos (Sample.ephemerides 0) (tot 0%nat) in
  let out :=
    apply_tropo_correction SampleTropo.wgsecef2azel SampleTropo.tropo_correction 2
      Sample.nav_meas SampleTropo.ref_ecef
      (calc_navigation_measurement_ Sample.NAV_C Sample.GPS_L1_HZ Sample.NOMINAL_RANGE
         unit Sample.calc_sat_pos 2 Sample.meas Sample.nav_meas 0 Sample.ephemerides
         Sample.heap)
      (Sample.nav_meas 0) in
  pseudorange out =
    (NavSpec.meanTOT 2 tot - tot 0%nat) * Sample.NAV_C + Sample.NOMINAL_RANGE
    + clock_err s * Sample.NAV_C
    - SampleTropo.tropo_correction
        (snd (SampleTropo.wgsecef2azel (pos s) SampleTropo.ref_ecef)) /\
  pseudorange_rate out =
    Sample.NAV_C * - carrier_freq (Sample.meas 0) / Sample.GPS_L1_HZ
    - clock_rate_err s * Sample.NAV_C /\
  TOT out = tot 0%nat.
Proof.
  apply (measure_then_tropo Sample.NAV_C Sample.GPS_L1_HZ Sample.NOMINAL_RANGE unit
           Sample.calc_sat_pos SampleTropo.wgsecef2azel SampleTropo.tropo_correction
           2 Sample.meas Sample.nav_meas 0 Sample.ephemerides SampleTropo.ref_ecef
           Sample.heap 0).
  - apply sample_pointers_distinct.
  - lia.
Defined.

End TropoSample.

(** ** Correlator *)

Section CorrelatorFurther.

Import CMath.

Variables samples code : Z -> Z.
Variables code_step carr_step : R.

(** X14.  The carrier replica, which is rotated by the angle-addition formulas
    and rescaled at every sample, is the sine and the cosine of the
    accumulated carrier phase when each sample is processed, and of unit
    magnitude. *)
Theorem carrier_replica_tracks_phase (p phi : R) (i : nat) (st : correlator_state) :
  state_at_sample samples code p code_step phi carr_step i = Some st ->
  carr_phase st = phi + INR i * carr_step /\
  carr_sin st = sin (carr_phase st) /\
  carr_cos st = cos (carr_phase st) /\
  carr_sin st * carr_sin st + carr_cos st * carr_cos st = 1.
Proof.
  unfold state_at_sample. intros H.
  destruct (correlate_loop_closed_form _ _ _ _ p phi i st H) as (Hsin & Hcos & _).
  destruct (correlate_loop_phases _ _ _ _ _ _ _ H) as [_ Hph].
  cbn [correlator_init carr_phase] in Hph.
  split; [exact Hph|]. split; [exact Hsin|]. split; [exact Hcos|].
  rewrite Hsin, Hcos. pose proof (sin2_cos2 (carr_phase st)) as Hunit.
  unfold Rsqr in Hunit. exact Hunit.
Qed.

(** *** Code phases outside the period *)



End CorrelatorFurther.


(** *** Sample epochs *)

Section CorrelatorFurtherSample.

Import CMath.

Local Abbreviation ones := (fun _ : Z => 1%Z).

Lemma carrier_replica_tracks_phase_witness :
  exists st,
    state_at_sample ones ones 0 1 0.3 0.01 3 = Some st /\
    carr_phase st = 0.3 + INR 3 * 0.01 /\
    carr_sin st = sin (carr_phase st) /\
    carr_cos st = cos (carr_phase st) /\
    carr_sin st * carr_sin st + carr_cos st * carr_cos st = 1.
Proof.
  destruct (correlate_loop_defined ones ones 1 0.01 3 (correlator_init 0 0.3))
    as [st Hst].
  - cbn. lra.
  - lra.
  - intros j Hj. cbn [correlator_init code_phase].
    assert (INR j < 3) by (apply (lt_INR j 3) in Hj; cbn in Hj; lra). lra.
  - exists st. split; [exact Hst|].
    exact (carrier_replica_tracks_phase ones ones 1 0.01 0 0.3 3 st Hst).
Defined.



End CorrelatorFurtherSample.

(** ** Correlator, with the rounding of the code phase *)

Section RoundedCorrelatorFurther.

Variable fl : R -> R.
Variables samples code : Z -> Z.
Variables code_step carr_step : R.

Local Abbreviation rsum index p replica phi :=
  (Rounded.correlation_sum fl samples code index p code_step replica phi carr_step).

(** X15.  The six sums a call returns are the correlations of the samples with
    the code replica times the sine (in phase) and the cosine (quadrature)
    of the carrier phase [phi + k carr_step].  The code phase of the sample
    [k] is [p] after [k] rounded additions of the code step, and the chip is
    the one at [ceil] of the code phase (prompt), of the rounded code phase
    less a half (early) and of the rounded code phase plus a half (late). *)
Theorem track_correlate_sums (p phi : R) (r : correlator_result) :
  Rounded.track_correlate fl samples code p code_step phi carr_step = Some r ->
  I_E' r = rsum (fun c => fl (c - 0.5)) p sin phi (Z.to_nat (num_samples r)) /\
  Q_E' r = rsum (fun c => fl (c - 0.5)) p cos phi (Z.to_nat (num_samples r)) /\
  I_P' r = rsum (fun c => c) p sin phi (Z.to_nat (num_samples r)) /\
  Q_P' r = rsum (fun c => c) p cos phi (Z.to_nat (num_samples r)) /\
  I_L' r = rsum (fun c => fl (c + 0.5)) p sin phi (Z.to_nat (num_samples r)) /\
  Q_L' r = rsum (fun c => fl (c + 0.5)) p cos phi (Z.to_nat (num_samples r)).
Proof.
  intros H.
  destruct (rounded_track_correlate_inv _ _ _ _ _ _ _ _ H)
    as (z & st & _ & _ & _ & Hst & _ & _ & -> & -> & -> & -> & -> & ->).
  destruct (rounded_loop_closed_form _ _ _ _ _ _ _ _ _ Hst)
    as (_ & _ & _ & _ & Hsums).
  exact Hsums.
Qed.

End RoundedCorrelatorFurther.

(** *** No chip before the replica *)

Section RoundedLowerBound.

Import CMath.

Variable fl : R -> R.
Hypothesis Hfl : Rounded.round_to_nearest fl.

Variables samples code : Z -> Z.
Variables code_step carr_step : R.

Lemma code_phase_at_nonneg (p : R) (k : nat) :
  valid_epoch p code_step -> 0 <= Rounded.code_phase_at fl p code_step k.
Proof.
  intros [Hp Hs]. induction k as [|k IH]; cbn [Rounded.code_phase_at]; [lra|].
  apply (fl_lower fl Hfl _ 0); [lia | lra].
Qed.

(** X16.  Whatever the number of samples, a sample of an epoch that starts
    at a code phase in [[0, 1023)] with a positive code step is taken at a
    code phase that is not negative, and its chip indices are not negative
    either: the early and the prompt index are at least 0 and the late index
    at least 1.  The code is never read before the replica. *)
Theorem chip_indices_nonnegative (p phi : R) (i : nat) (st : correlator_state)
    (e pr l : Z) :
  valid_epoch p code_step ->
  Rounded.state_at_sample fl samples code p code_step phi carr_step i = Some st ->
  Rounded.early_index fl (code_phase st) = Some e ->
  prompt_index (code_phase st) = Some pr ->
  Rounded.late_index fl (code_phase st) = Some l ->
  0 <= code_phase st /\ (0 <= e)%Z /\ (0 <= pr)%Z /\ (1 <= l)%Z.
Proof.
  intros Hv Hst He Hp Hl. unfold Rounded.state_at_sample in Hst.
  destruct (rounded_loop_closed_form _ _ _ _ _ _ _ _ _ Hst) as (Hcp & _).
  pose proof (code_phase_at_nonneg p i Hv) as H0. rewrite <- Hcp in H0.
  apply chip_index_Some in He, Hp, Hl. subst e pr l.
  split; [exact H0|]. split; [|split].
  - assert (H : - (1 / 2) <= fl (code_phase st - 0.5)).
    { replace (- (1 / 2)) with (IZR (-2) / 4) by lra.
      rewrite <- (fl_quarters fl Hfl (-2)) by lia.
      apply (fl_monotone fl Hfl). lra. }
    pose proof (Zceil_bound (fl (code_phase st - 0.5))) as [Hlo Hhi].
    assert (Hd : IZR (-1) < IZR (Zceil (fl (code_phase st - 0.5)))) by lra.
    apply lt_IZR in Hd. lia.
  - apply Zceil_lower. exact H0.
  - assert (H : 1 / 2 <= fl (code_phase st + 0.5)).
    { replace (1 / 2) with (IZR 2 / 4) by lra.
      rewrite <- (fl_quarters fl Hfl 2) by lia.
      apply (fl_monotone fl Hfl). lra. }
    pose proof (Zceil_bound (fl (code_phase st + 0.5))) as [Hlo Hhi].
    assert (Hd : IZR 0 < IZR (Zceil (fl (code_phase st + 0.5)))) by lra.
    apply lt_IZR in Hd. lia.
Qed.

End RoundedLowerBound.

(** *** What a call reads *)

Section RoundedFootprint.

Import CMath.

Variable fl : R -> R.
Variables samples samples' code code' : Z -> Z.
Variables code_step carr_step : R.

Local Abbreviation cp_at p := (Rounded.code_phase_at fl p code_step).

Lemma rounded_step_ext (sin_delta cos_delta : R) (i : Z) (st : correlator_state) :
  samples i = samples' i ->
  code (Zceil (fl (code_phase st - 0.5))) = code' (Zceil (fl (code_phase st - 0.5))) ->
  code (Zceil (code_phase st)) = code' (Zceil (code_phase st)) ->
  code (Zceil (fl (code_phase st + 0.5))) = code' (Zceil (fl (code_phase st + 0.5))) ->
  Rounded.correlate_step fl samples code code_step carr_step sin_delta cos_delta i st =
  Rounded.correlate_step fl samples' code' code_step carr_step sin_delta cos_delta i st.
Proof.
  intros Hs He Hp Hl. unfold Rounded.correlate_step.
  destruct (Rounded.early_index fl (code_phase st)) as [iE|] eqn:HE; [|reflexivity].
  destruct (prompt_index (code_phase st)) as [iP|] eqn:HP; [|reflexivity].
  destruct (Rounded.late_index fl (code_phase st)) as [iL|] eqn:HL; [|reflexivity].
  apply chip_index_Some in HE, HP, HL. subst iE iP iL. cbn [bind].
  now rewrite Hs, He, Hp, Hl.
Qed.

Lemma rounded_loop_ext (p phi : R) (k : nat) :
  (forall j, (j < k)%nat ->
     samples (Z.of_nat j) = samples' (Z.of_nat j) /\
     code (Zceil (fl (cp_at p j - 0.5))) = code' (Zceil (fl (cp_at p j - 0.5))) /\
     code (Zceil (cp_at p j)) = code' (Zceil (cp_at p j)) /\
     code (Zceil (fl (cp_at p j + 0.5))) = code' (Zceil (fl (cp_at p j + 0.5)))) ->
  Rounded.correlate_loop fl samples code code_step carr_step
    (sin carr_step) (cos carr_step) k (correlator_init p phi) =
  Rounded.correlate_loop fl samples' code' code_step carr_step
    (sin carr_step) (cos carr_step) k (correlator_init p phi).
Proof.
  induction k as [|k IH]; intros H; [reflexivity|].
  cbn [Rounded.correlate_loop]. rewrite IH by (intros; apply H; lia).
  destruct (Rounded.correlate_loop fl samples' code' code_step carr_step
              (sin carr_step) (cos carr_step) k (correlator_init p phi))
    as [st|] eqn:Hst; [|reflexivity].
  cbn [bind].
  destruct (rounded_loop_closed_form _ _ _ _ _ _ _ _ _ Hst) as (Hcp & _).
  destruct (H k ltac:(lia)) as (Hs & He & Hp & Hl).
  apply rounded_step_ext; rewrite ?Hcp; assumption.
Qed.

(** X20.  A call reads the samples [0 .. num_samples - 1] and, with each of
    them, the chips at [ceil] of its code phase, of the rounded code phase
    less a half and of the rounded code phase plus a half, and nothing else:
    buffers that agree there give the same result.  The code phase of the
    sample [k] is [p] after [k] rounded additions of the code step. *)
Theorem track_correlate_reads (p phi : R) (n : Z) :
  Rounded.epoch_samples fl p code_step = Some n ->
  (forall k, (k < Z.to_nat n)%nat ->
     samples (Z.of_nat k) = samples' (Z.of_nat k) /\
     code (Zceil (fl (cp_at p k - 0.5))) = code' (Zceil (fl (cp_at p k - 0.5))) /\
     code (Zceil (cp_at p k)) = code' (Zceil (cp_at p k)) /\
     code (Zceil (fl (cp_at p k + 0.5))) = code' (Zceil (fl (cp_at p k + 0.5)))) ->
  Rounded.track_correlate fl samples code p code_step phi carr_step =
  Rounded.track_correlate fl samples' code' p code_step phi carr_step.
Proof.
  intros Hn H. unfold Rounded.track_correlate. rewrite Hn. cbn [bind].
  now rewrite (rounded_loop_ext p phi (Z.to_nat n) H).
Qed.

End RoundedFootprint.

(** *** Sample epochs *)

Section RoundedCorrelatorSample.

Import CMath.

Local Abbreviation ones := (fun _ : Z => 1%Z).

Lemma track_correlate_sums_witness :
  exists r,
    Rounded.track_correlate Rounded.exact ones ones 0 1 0.3 0.01 = Some r /\
    I_E' r = Rounded.correlation_sum Rounded.exact ones ones
               (fun c => Rounded.exact (c - 0.5)) 0 1 sin 0.3 0.01
               (Z.to_nat (num_samples r)) /\
    Q_E' r = Rounded.correlation_sum Rounded.exact ones ones
               (fun c => Rounded.exact (c - 0.5)) 0 1 cos 0.3 0.01
               (Z.to_nat (num_samples r)) /\
    I_P' r = Rounded.correlation_sum Rounded.exact ones ones (fun c => c) 0 1 sin 0.3 0.01
               (Z.to_nat (num_samples r)) /\
    Q_P' r = Rounded.correlation_sum Rounded.exact ones ones (fun c => c) 0 1 cos 0.3 0.01
               (Z.to_nat (num_samples r)) /\
    I_L' r = Rounded.correlation_sum Rounded.exact ones ones
               (fun c => Rounded.exact (c + 0.5)) 0 1 sin 0.3 0.01
               (Z.to_nat (num_samples r)) /\
    Q_L' r = Rounded.correlation_sum Rounded.exact ones ones
               (fun c => Rounded.exact (c + 0.5)) 0 1 cos 0.3 0.01
               (Z.to_nat (num_samples r)).
Proof.
  destruct (sample_epoch_returns ones ones 0.3 0.01) as [r Hr].
  exists r. split; [exact Hr|].
  exact (track_correlate_sums Rounded.exact ones ones 1 0.01 0 0.3 r Hr).
Defined.

Lemma sample_epoch_count : Rounded.epoch_samples Rounded.exact 0 1 = Some 1023%Z.
Proof.
  rewrite (rounded_epoch_samples_valid Rounded.exact 1 round_to_nearest_exact 0
             sample_epoch_valid); unfold Rounded.exact.
  - now rewrite Zceil_1023.
  - exact sample_epoch_fits.
Qed.

Lemma sample_code_phase (k : nat) : Rounded.code_phase_at Rounded.exact 0 1 k = INR k.
Proof.
  rewrite code_phase_at_exact by reflexivity. ring.
Qed.

Lemma sample_buffers_agree (k : nat) :
  (k < Z.to_nat 1023)%nat ->
  ones (Z.of_nat k) = SampleBuffers.samples (Z.of_nat k) /\
  ones (Zceil (Rounded.exact (Rounded.code_phase_at Rounded.exact 0 1 k - 0.5)))
  = SampleBuffers.code
      (Zceil (Rounded.exact (Rounded.code_phase_at Rounded.exact 0 1 k - 0.5))) /\
  ones (Zceil (Rounded.code_phase_at Rounded.exact 0 1 k))
  = SampleBuffers.code (Zceil (Rounded.code_phase_at Rounded.exact 0 1 k)) /\
  ones (Zceil (Rounded.exact (Rounded.code_phase_at Rounded.exact 0 1 k + 0.5)))
  = SampleBuffers.code
      (Zceil (Rounded.exact (Rounded.code_phase_at Rounded.exact 0 1 k + 0.5))).
Proof.
  intros Hk. rewrite sample_code_phase. unfold Rounded.exact.
  assert (Hr : 0 <= INR k <= 1022).
  { split; [apply pos_INR|]. rewrite INR_IZR_INZ. apply IZR_le. lia. }
  assert (Hcode : forall x, x <= 1024 -> 1%Z = SampleBuffers.code (Zceil x)).
  { intros x Hx. unfold SampleBuffers.code.
    destruct (Z.leb_spec (Zceil x) 1024) as [_|Hc]; [reflexivity|].
    pose proof (Zceil_upper x 1024 Hx). lia. }
  split.
  { unfold SampleBuffers.samples.
    destruct (Z.ltb_spec (Z.of_nat k) 1023); [reflexivity | lia]. }
  repeat split; apply Hcode; lra.
Qed.

Lemma chip_indices_nonnegative_witness :
  exists st,
    Rounded.state_at_sample Rounded.exact ones ones 0 1 0 0 3 = Some st /\
    Rounded.early_index Rounded.exact (code_phase st) = Some 3%Z /\
    prompt_index (code_phase st) = Some 3%Z /\
    Rounded.late_index Rounded.exact (code_phase st) = Some 4%Z /\
    0 <= code_phase st /\ (0 <= 3)%Z /\ (0 <= 3)%Z /\ (1 <= 4)%Z.
Proof.
  destruct (rounded_loop_defined Rounded.exact ones ones 1 0 round_to_nearest_exact
              0 0 3 sample_epoch_valid) as [st Hst].
  { rewrite (Zceil_eq 1 1) by lra. unfold INT_MAX. lia. }
  destruct (rounded_loop_closed_form _ _ _ _ _ _ _ _ _ Hst) as (Hcp & _).
  rewrite sample_code_phase in Hcp.
  assert (He : Rounded.early_index Rounded.exact (code_phase st) = Some 3%Z).
  { unfold Rounded.early_index, Rounded.exact. rewrite Hcp.
    rewrite chip_index_ceil; rewrite (Zceil_eq 3) by (cbn; lra);
      [reflexivity | unfold INT_MIN, INT_MAX; lia]. }
  assert (Hp : prompt_index (code_phase st) = Some 3%Z).
  { unfold prompt_index. rewrite Hcp.
    rewrite chip_index_ceil; rewrite (Zceil_eq 3) by (cbn; lra);
      [reflexivity | unfold INT_MIN, INT_MAX; lia]. }
  assert (Hl : Rounded.late_index Rounded.exact (code_phase st) = Some 4%Z).
  { unfold Rounded.late_index, Rounded.exact. rewrite Hcp.
    rewrite chip_index_ceil; rewrite (Zceil_eq 4) by (cbn; lra);
      [reflexivity | unfold INT_MIN, INT_MAX; lia]. }
  exists st. split; [exact Hst|]. split; [exact He|]. split; [exact Hp|].
  split; [exact Hl|].
  exact (chip_indices_nonnegative Rounded.exact round_to_nearest_exact ones ones 1 0
           0 0 3 st 3 3 4 sample_epoch_valid Hst He Hp Hl).
Defined.

Lemma track_correlate_reads_witness :
  Rounded.epoch_samples Rounded.exact 0 1 = Some 1023%Z /\
  Rounded.track_correlate Rounded.exact ones ones 0 1 0 0 =
  Rounded.track_correlate Rounded.exact SampleBuffers.samples SampleBuffers.code 0 1 0 0.
Proof.
  split; [exact sample_epoch_count|].
  exact (track_correlate_reads Rounded.exact ones SampleBuffers.samples ones
           SampleBuffers.code 1 0 0 0 1023 sample_epoch_count sample_buffers_agree).
Defined.

End RoundedCorrelatorSample.
